(** * finance-app2: the projection engine of [app.py]

    [calculate_projection] (app.py, lines 27-67) is embedded once, over an
    interface of Python numbers, and run on two instances of it:

    - [Q], exact decimal arithmetic, on which the algebraic properties of
      the projection are proved;
    - [float], IEEE binary64 as CPython computes, with [round(x, 2)]
      modelled digit for digit, on which concrete runs are evaluated.

    Python raises [TypeError] on [None + 1]; the embedding keeps that
    behaviour in a small error monad. *)

From Stdlib Require Import ZArith QArith Qround.
From Stdlib Require Import List String Bool Lia Lqa.
From Stdlib Require Import PrimFloat SpecFloat FloatOps FloatAxioms.
From Stdlib Require Import NArith Ascii DecimalString DecimalPos DecimalN.
Import ListNotations.

Set Implicit Arguments.
Local Open Scope Z_scope.

(** ** Exceptions *)

Inductive exn : Set := TypeError.

Inductive result (A : Type) : Type :=
| Ok (a : A)
| Raise (e : exn).
Arguments Raise {A} e.

Definition bind {A B : Type} (c : result A) (k : A -> result B) : result B :=
  match c with
  | Ok a => k a
  | Raise e => Raise e
  end.

Notation "x <- c ;; k" := (bind c (fun x => k))
  (at level 61, c at next level, right associativity).

(** ** Python numbers

    The engine uses [+], [-], [*], integer and decimal literals, and
    [round(x, 2)].  [literal m k] is the number the interpreter reads from
    the decimal literal [m * 10^-k]. *)

Class PyNumber (T : Type) : Type := {
  of_int : Z -> T;
  literal : Z -> nat -> T;
  add : T -> T -> T;
  sub : T -> T -> T;
  mul : T -> T -> T;
  round2 : T -> T
}.

Declare Scope py_scope.
Delimit Scope py_scope with py.
Infix "+" := add : py_scope.
Infix "-" := sub : py_scope.
Infix "*" := mul : py_scope.

(** ** Values of the optional ages: an [int] or [None] *)

(** Truth value of [params['marriage_age']] in a condition. *)
Definition truthy (v : option Z) : bool :=
  match v with
  | None => false
  | Some z => negb (z =? 0)
  end.

(** [v + k] and [v - k] for an [int] or [None] on the left. *)
Definition opt_add (v : option Z) (k : Z) : result Z :=
  match v with
  | Some z => Ok (z + k)
  | None => Raise TypeError
  end.

(** [a >= v] for an [int] or [None] on the right. *)
Definition ge_opt (a : Z) (v : option Z) : result bool :=
  match v with
  | Some z => Ok (z <=? a)
  | None => Raise TypeError
  end.

(** ** Dictionaries with string keys, [range] and [for] *)

(** [d.get(key)]: the value under [key], or [None]. *)
Fixpoint dict_find {V : Type} (d : list (string * V)) (key : string) : option V :=
  match d with
  | [] => None
  | (k, v) :: d' => if String.eqb k key then Some v else dict_find d' key
  end.

(** [d.get(key, default)] *)
Definition dict_get {V : Type} (d : list (string * V)) (key : string) (default : V) : V :=
  match dict_find d key with
  | Some v => v
  | None => default
  end.

Definition range (start stop : Z) : list Z :=
  map (fun i => start + Z.of_nat i) (seq 0 (Z.to_nat (stop - start))).

Fixpoint for_each {S : Type} (xs : list Z) (body : S -> Z -> result S) (s : S)
  : result S :=
  match xs with
  | [] => Ok s
  | x :: xs' => s' <- body s x ;; for_each xs' body s'
  end.

(** ** Data model *)

(** The [params] dictionary. *)
Module Params.
Record t (T : Type) : Type := mk {
  starting_salary : T;
  rent : T;
  monthly_expenses : T;
  years : Z;
  industry : string;
  investment_rate : T;
  invest_ratio : T;
  current_age : option Z;
  marriage_age : option Z
}.
End Params.

(** One dictionary appended to [results]. *)
Module Snapshot.
Record t (T : Type) : Type := mk {
  Year : Z;
  Age : Z;
  Salary : T;
  Rent : T;
  Expenses : T;
  Savings : T;
  Invested : T;
  Cash : T;
  Total : T
}.
End Snapshot.

(** The variables assigned in one iteration of the loop (lines 35-53). *)
Module Frame.
Record t (T : Type) : Type := mk {
  salary : T;
  rent : T;
  expenses : T;
  annual_savings : T;
  to_invest : T;
  to_cash : T;
  invested : T;
  savings : T;
  total : T
}.
End Frame.

(** The variables bound before the loop and carried around it. *)
Module Locals.
Record t (T : Type) : Type := mk {
  results : list (Snapshot.t T);
  salary : T;
  savings : T;
  invested : T
}.
End Locals.

(** ** The engine *)

Section Engine.
Context {T : Type} `{PyNumber T}.
Local Open Scope py_scope.

Definition INDUSTRY_GROWTH : list (string * T) :=
  [ ("finance"%string, literal 5 2);
    ("technology"%string, literal 6 2);
    ("healthcare"%string, literal 4 2);
    ("education"%string, literal 3 2);
    ("manufacturing"%string, literal 35 3);
    ("retail"%string, literal 25 3);
    ("government"%string, literal 2 2);
    ("consulting"%string, literal 45 3) ].

(** [INDUSTRY_GROWTH.get(params['industry'], 0.03)] *)
Definition growth_rate (params : Params.t T) : T :=
  dict_get INDUSTRY_GROWTH (Params.industry params) (literal 3 2).

(** Line 39: [params['marriage_age'] and
    (params['current_age'] + year - 1) >= params['marriage_age']]. *)
Definition married (params : Params.t T) (year : Z) : result bool :=
  if truthy (Params.marriage_age params) then
    a <- opt_add (Params.current_age params) year ;;
    ge_opt (a - 1)%Z (Params.marriage_age params)
  else Ok false.

(** Lines 35-53, once the test of line 39 is known. *)
Definition figures (params : Params.t T) (st : Locals.t T) (is_married : bool)
  : Frame.t T :=
  let salary := Locals.salary st * (of_int 1 + growth_rate params) in
  let rent := Params.rent params in
  let rent := if is_married then rent * literal 8 1 else rent in
  let expenses := rent + Params.monthly_expenses params * of_int 12 in
  let annual_savings := salary - expenses in
  let to_invest := annual_savings * Params.invest_ratio params in
  let to_cash := annual_savings * (of_int 1 - Params.invest_ratio params) in
  let invested :=
    Locals.invested st * (of_int 1 + Params.investment_rate params) + to_invest in
  let savings := Locals.savings st + to_cash in
  let total := savings + invested in
  Frame.mk salary rent expenses annual_savings to_invest to_cash
           invested savings total.

(** Lines 55-65: the dictionary built from the frame. *)
Definition snapshot (year age : Z) (fr : Frame.t T) : Snapshot.t T :=
  {| Snapshot.Year := year;
     Snapshot.Age := age;
     Snapshot.Salary := round2 (Frame.salary fr);
     Snapshot.Rent := round2 (Frame.rent fr);
     Snapshot.Expenses := round2 (Frame.expenses fr);
     Snapshot.Savings := round2 (Frame.annual_savings fr);
     Snapshot.Invested := round2 (Frame.invested fr);
     Snapshot.Cash := round2 (Frame.savings fr);
     Snapshot.Total := round2 (Frame.total fr) |}.

(** The frame's values of the carried variables, with the new row. *)
Definition carry (st : Locals.t T) (fr : Frame.t T) (row : Snapshot.t T)
  : Locals.t T :=
  {| Locals.results := Locals.results st ++ [row];
     Locals.salary := Frame.salary fr;
     Locals.savings := Frame.savings fr;
     Locals.invested := Frame.invested fr |}.

(** The body of the [for] loop, lines 34-65. *)
Definition loop_body (params : Params.t T) (st : Locals.t T) (year : Z)
  : result (Locals.t T) :=
  is_married <- married params year ;;
  let fr := figures params st is_married in
  a <- opt_add (Params.current_age params) year ;;
  let age := (a - 1)%Z in
  Ok (carry st fr (snapshot year age fr)).

(** Lines 28-31. *)
Definition initial (params : Params.t T) : Locals.t T :=
  {| Locals.results := [];
     Locals.salary := Params.starting_salary params;
     Locals.savings := of_int 0;
     Locals.invested := of_int 0 |}.

(** The loop run over [range(1, n + 1)]. *)
Definition run_loop (params : Params.t T) (n : Z) : result (Locals.t T) :=
  for_each (range 1 (n + 1)) (loop_body params) (initial params).

Definition calculate_projection (params : Params.t T)
  : result (list (Snapshot.t T)) :=
  st <- run_loop params (Params.years params) ;;
  Ok (Locals.results st).

End Engine.

(** ** Exact decimal numbers

    [round(x, 2)] rounds to the nearest multiple of 0.01, a tie going to
    the even one. *)

Definition round_half_even (q : Q) : Z :=
  let f := Qfloor q in
  match (q - inject_Z f ?= 1 # 2)%Q with
  | Lt => f
  | Gt => f + 1
  | Eq => if Z.even f then f else f + 1
  end.

Definition Qround2 (q : Q) : Q := round_half_even (q * 100) # 100.

#[export] Instance Q_number : PyNumber Q := {|
  of_int := inject_Z;
  literal := fun m k => m # Z.to_pos (10 ^ Z.of_nat k);
  add := Qplus;
  sub := Qminus;
  mul := Qmult;
  round2 := Qround2
|}.

(** ** Binary64 numbers

    CPython parses a decimal literal to the nearest double, converts an
    [int] to the nearest double, and computes [round(x, 2)] by printing
    [x] correctly rounded to two decimals ([_Py_dg_dtoa], mode 3) and
    parsing that string back to the nearest double; zeros, infinities and
    NaN round to themselves.  An [int] of the form is read as the double
    of the same value: below [2^53] the two arithmetics agree on the sums
    and products of the engine. *)

(** The double nearest to [(-1)^s * n / d]. *)
Definition nearest_ratio (s : bool) (n d : positive) : float :=
  SF2Prim (SFdiv prec emax (S754_finite s n 0) (S754_finite false d 0)).

(** The exact value of a finite double [m * 2^e]. *)
Definition Q_of_finite (m : positive) (e : Z) : Q :=
  if 0 <=? e then (Zpos m * 2 ^ e) # 1 else Zpos m # Z.to_pos (2 ^ (- e)).

Definition float_round2 (x : float) : float :=
  match Prim2SF x with
  | S754_finite s m e =>
      match round_half_even (Q_of_finite m e * 100) with
      | Zpos n => nearest_ratio s n 100
      | _ => SF2Prim (S754_zero s)
      end
  | _ => x
  end.

Definition float_literal (m : Z) (k : nat) : float :=
  match m with
  | Z0 => PrimFloat.zero
  | Zpos n => nearest_ratio false n (Z.to_pos (10 ^ Z.of_nat k))
  | Zneg n => nearest_ratio true n (Z.to_pos (10 ^ Z.of_nat k))
  end.

#[export] Instance float_number : PyNumber float := {|
  of_int := fun z => SF2Prim (binary_normalize prec emax z 0 false);
  literal := float_literal;
  add := PrimFloat.add;
  sub := PrimFloat.sub;
  mul := PrimFloat.mul;
  round2 := float_round2
|}.

(** ** Reading the run

    What the loop holds at a given year, for stating properties of values
    that are not part of the output. *)

Section Reading.
Context {T : Type} `{PyNumber T}.

(** The test of line 39 when [params['current_age']] is the int [a]. *)
Definition wed (params : Params.t T) (a year : Z) : bool :=
  match Params.marriage_age params with
  | Some m => negb (m =? 0) && (m <=? a + year - 1)
  | None => false
  end.

(** The frame of the iteration for [year]. *)
Definition frame_at (params : Params.t T) (year : Z) : result (Frame.t T) :=
  st <- run_loop params (year - 1) ;;
  is_married <- married params year ;;
  Ok (figures params st is_married).

(** [to_invest] of the iteration for [year]; [0] when that iteration
    raises. *)
Definition to_invest_at (params : Params.t T) (year : Z) : T :=
  match frame_at params year with
  | Ok fr => Frame.to_invest fr
  | Raise _ => of_int 0
  end.

(** [0 + to_invest[1] + ... + to_invest[n]]. *)
Fixpoint contributions (params : Params.t T) (n : nat) : T :=
  match n with
  | O => of_int 0
  | S k => add (contributions params k) (to_invest_at params (Z.of_nat n))
  end.

(** [params] with another [industry]. *)
Definition with_industry (params : Params.t T) (key : string) : Params.t T :=
  {| Params.starting_salary := Params.starting_salary params;
     Params.rent := Params.rent params;
     Params.monthly_expenses := Params.monthly_expenses params;
     Params.years := Params.years params;
     Params.industry := key;
     Params.investment_rate := Params.investment_rate params;
     Params.invest_ratio := Params.invest_ratio params;
     Params.current_age := Params.current_age params;
     Params.marriage_age := Params.marriage_age params |}.

(** The rows of a returned projection, [[]] when it raises. *)
Definition rows_of (params : Params.t T) : list (Snapshot.t T) :=
  match calculate_projection params with
  | Ok r => r
  | Raise _ => []
  end.

(** The row of [year] in a returned projection. *)
Definition row_at (params : Params.t T) (year : nat) : option (Snapshot.t T) :=
  nth_error (rows_of params) (year - 1).

End Reading.

(** ** Sample inputs *)

(** The scenario of the specification, with the two ages left open. *)
Definition scenario {T : Type} `{PyNumber T} (current_age marriage_age : option Z)
  : Params.t T :=
  {| Params.starting_salary := of_int 80000;
     Params.rent := of_int 18000;
     Params.monthly_expenses := of_int 1500;
     Params.years := 3;
     Params.industry := "technology";
     Params.investment_rate := literal 5 2;
     Params.invest_ratio := literal 5 1;
     Params.current_age := current_age;
     Params.marriage_age := marriage_age |}.

(** The first row the specification gives for it. *)
Definition scenario_year_1 {T : Type} `{PyNumber T} (age : Z) : Snapshot.t T :=
  {| Snapshot.Year := 1;
     Snapshot.Age := age;
     Snapshot.Salary := literal 8480000 2;
     Snapshot.Rent := literal 1800000 2;
     Snapshot.Expenses := literal 3600000 2;
     Snapshot.Savings := literal 4880000 2;
     Snapshot.Invested := literal 2440000 2;
     Snapshot.Cash := literal 2440000 2;
     Snapshot.Total := literal 4880000 2 |}.

(** A planned marriage two years ahead (the rent example of the
    specification). *)
Definition newlyweds {T : Type} `{PyNumber T} : Params.t T :=
  {| Params.starting_salary := of_int 60000;
     Params.rent := of_int 12000;
     Params.monthly_expenses := of_int 1000;
     Params.years := 5;
     Params.industry := "finance";
     Params.investment_rate := literal 5 2;
     Params.invest_ratio := literal 5 1;
     Params.current_age := Some 30;
     Params.marriage_age := Some 32 |}.

(** The same plan with [marriage_age] 0. *)
Definition zero_marriage_age {T : Type} `{PyNumber T} : Params.t T :=
  {| Params.starting_salary := of_int 60000;
     Params.rent := of_int 12000;
     Params.monthly_expenses := of_int 1000;
     Params.years := 2;
     Params.industry := "finance";
     Params.investment_rate := literal 5 2;
     Params.invest_ratio := literal 5 1;
     Params.current_age := Some 30;
     Params.marriage_age := Some 0 |}.

(** A rent of 100.01, married from the first year. *)
Definition odd_rent {T : Type} `{PyNumber T} : Params.t T :=
  {| Params.starting_salary := of_int 60000;
     Params.rent := literal 10001 2;
     Params.monthly_expenses := of_int 1000;
     Params.years := 1;
     Params.industry := "finance";
     Params.investment_rate := literal 5 2;
     Params.invest_ratio := literal 5 1;
     Params.current_age := Some 30;
     Params.marriage_age := Some 30 |}.

(** A starting salary of [mills / 1000], the marriage out of reach. *)
Definition small_salary {T : Type} `{PyNumber T} (mills : Z) : Params.t T :=
  {| Params.starting_salary := literal mills 3;
     Params.rent := of_int 12000;
     Params.monthly_expenses := of_int 1000;
     Params.years := 2;
     Params.industry := "education";
     Params.investment_rate := literal 5 2;
     Params.invest_ratio := literal 5 1;
     Params.current_age := Some 30;
     Params.marriage_age := Some 40 |}.

(** Whole amounts from the form whose contributions have three decimals. *)
Definition uneven {T : Type} `{PyNumber T} : Params.t T :=
  {| Params.starting_salary := of_int 50001;
     Params.rent := of_int 12000;
     Params.monthly_expenses := of_int 1000;
     Params.years := 2;
     Params.industry := "technology";
     Params.investment_rate := literal 7 2;
     Params.invest_ratio := literal 35 2;
     Params.current_age := Some 30;
     Params.marriage_age := Some 40 |}.

(** ** More readings of the run *)

(** [params] with another [years]. *)
Definition with_years {T : Type} (params : Params.t T) (n : Z) : Params.t T :=
  {| Params.starting_salary := Params.starting_salary params;
     Params.rent := Params.rent params;
     Params.monthly_expenses := Params.monthly_expenses params;
     Params.years := n;
     Params.industry := Params.industry params;
     Params.investment_rate := Params.investment_rate params;
     Params.invest_ratio := Params.invest_ratio params;
     Params.current_age := Params.current_age params;
     Params.marriage_age := Params.marriage_age params |}.

(** ** The page (lines 69-142)

    The script reads the widgets of the sidebar, and either warns that the
    form is incomplete or runs the engine and hands the headline figures,
    the two charts and the table to the display. *)

(** The text of [f"{x:,.0f}"]. *)
Class PyFormat (T : Type) : Type := {
  format_comma_0f : T -> string
}.

(** The decimal digits of a whole number. *)
Definition digits (n : N) : string := NilZero.string_of_uint (N.to_uint n).

(** A comma after every third digit, on the digits from the right. *)
Fixpoint commas_rev (cs : list ascii) : list ascii :=
  match cs with
  | a :: b :: c :: ((_ :: _) as rest) =>
      a :: b :: c :: ","%char :: commas_rev rest
  | _ => cs
  end.

Definition group_thousands (ds : string) : string :=
  string_of_list_ascii (rev (commas_rev (rev (list_ascii_of_string ds)))).

Definition sign_text (negative : bool) : string :=
  if negative then "-"%string else EmptyString.

(** CPython prints the double correctly rounded to no decimals; a
    negative zero keeps its sign, infinities and NaN print by name. *)
Definition float_format (x : float) : string :=
  match Prim2SF x with
  | S754_nan => "nan"%string
  | S754_infinity s => (sign_text s ++ "inf")%string
  | S754_zero s => (sign_text s ++ "0")%string
  | S754_finite s m e =>
      (sign_text s
       ++ group_thousands (digits (Z.to_N (round_half_even (Q_of_finite m e)))))%string
  end.

#[export] Instance float_format_number : PyFormat float := {|
  format_comma_0f := float_format
|}.

(** What the widgets return: the three amounts and the ages are ints, the
    two sliders floats; the age inputs are read only when the box is
    checked. *)
Module Form.
Record t (T : Type) : Type := mk {
  starting_salary : Z;
  rent : Z;
  monthly_expenses : Z;
  years : Z;
  industry : string;
  investment_rate : T;
  invest_ratio : T;
  marriage_check : bool;
  current_age : Z;
  marriage_age : Z
}.
End Form.

(** What is handed to the display. *)
Module Page.
Record t (T : Type) : Type := mk {
  metrics : list (string * string);
  years_list : list Z;
  totals : list T;
  salaries : list T;
  expenses : list T;
  table : list (Snapshot.t T)
}.
End Page.

Inductive screen (T : Type) : Type :=
| Warning (message : string)
| Results (page : Page.t T).
Arguments Warning {T} message.

Inductive failure : Set :=
| Engine (e : exn)
| IndexError.

Inductive outcome (A : Type) : Type :=
| Shown (a : A)
| Failed (f : failure).
Arguments Failed {A} f.

Section Script.
Context {T : Type} `{PyNumber T} `{PyFormat T}.

(** Lines 86-90 and 94-104. *)
Definition form_params (form : Form.t T) : Params.t T :=
  {| Params.starting_salary := of_int (Form.starting_salary form);
     Params.rent := of_int (Form.rent form);
     Params.monthly_expenses := of_int (Form.monthly_expenses form);
     Params.years := Form.years form;
     Params.industry := Form.industry form;
     Params.investment_rate := Form.investment_rate form;
     Params.invest_ratio := Form.invest_ratio form;
     Params.current_age :=
       if Form.marriage_check form then Some (Form.current_age form) else None;
     Params.marriage_age :=
       if Form.marriage_check form then Some (Form.marriage_age form) else None |}.

(** [results[-1]] *)
Definition last_row (results : list (Snapshot.t T)) : outcome (Snapshot.t T) :=
  match nth_error results (List.length results - 1) with
  | Some row => Shown row
  | None => Failed IndexError
  end.

(** [f"CHF {x:,.0f}"] *)
Definition chf (x : T) : string := ("CHF " ++ format_comma_0f x)%string.

(** Lines 109-140. *)
Definition show_results (results : list (Snapshot.t T)) : outcome (Page.t T) :=
  match last_row results with
  | Failed f => Failed f
  | Shown last =>
      Shown
        {| Page.metrics :=
             [ ("Final Total Savings"%string, chf (Snapshot.Total last));
               ("Total Invested"%string, chf (Snapshot.Invested last));
               ("Final Salary"%string, chf (Snapshot.Salary last)) ];
           Page.years_list := map (@Snapshot.Year T) results;
           Page.totals := map (@Snapshot.Total T) results;
           Page.salaries := map (@Snapshot.Salary T) results;
           Page.expenses := map (@Snapshot.Expenses T) results;
           Page.table := results |}
  end.

Definition incomplete : string :=
  "Please enter all your financial details in the sidebar to see your projection".

(** Lines 92-142. *)
Definition run_app (form : Form.t T) : outcome (screen T) :=
  if (0 <? Form.starting_salary form) && (0 <? Form.rent form)
     && (0 <? Form.monthly_expenses form)
  then
    match calculate_projection (form_params form) with
    | Raise e => Failed (Engine e)
    | Ok results =>
        match show_results results with
        | Failed f => Failed f
        | Shown page => Shown (Results page)
        end
    end
  else Shown (Warning incomplete).

End Script.

(** A filled form, with the marriage box as given. *)
Definition filled_form {T : Type} `{PyNumber T} (marriage_check : bool) : Form.t T :=
  {| Form.starting_salary := 80000;
     Form.rent := 18000;
     Form.monthly_expenses := 1500;
     Form.years := 3;
     Form.industry := "technology";
     Form.investment_rate := literal 5 2;
     Form.invest_ratio := literal 5 1;
     Form.marriage_check := marriage_check;
     Form.current_age := 30;
     Form.marriage_age := 32 |}.

(** The form as it opens: every amount at its minimum 0. *)
Definition blank_form {T : Type} `{PyNumber T} : Form.t T :=
  {| Form.starting_salary := 0;
     Form.rent := 0;
     Form.monthly_expenses := 0;
     Form.years := 1;
     Form.industry := "finance";
     Form.investment_rate := literal 0 2;
     Form.invest_ratio := literal 0 2;
     Form.marriage_check := false;
     Form.current_age := 18;
     Form.marriage_age := 18 |}.

(** Row 3 of the projection of [newlyweds]. *)
Definition snapshot_of_year_3 {T : Type} `{PyNumber T} : Snapshot.t T :=
  match nth_error (rows_of newlyweds) 2 with
  | Some row => row
  | None => scenario_year_1 0
  end.

(** ** The rounding of doubles, read on integers

    [binary_round_aux], the rounding behind the product and the
    quotient of doubles, shifts a located mantissa to the exponent of
    the format and rounds it to nearest, ties to even.  These are the
    quantities its properties are stated with. *)

Local Abbreviation fexp64 := (fexp prec emax).

(** A mantissa with its round and sticky bits, as one integer: located
    mantissas at one exponent are ordered as their keys. *)
Definition key (R : shr_record) : Z :=
  4 * shr_m R + (if shr_r R then 2 else 0) + (if shr_s R then 1 else 0).

(** The mantissa rounded to nearest, ties to even. *)
Definition rne (R : shr_record) : Z :=
  round_nearest_even (shr_m R) (loc_of_shr_record R).

(** The places the first shift of [binary_round_aux] drops. *)
Definition first_shift (R : shr_record) (e : Z) : Z :=
  Z.max 0 (fexp64 (Zdigits2 (shr_m R) + e) - e).

(** The mantissa after that shift, rounded. *)
Definition first_round (R : shr_record) (e : Z) : Z :=
  rne (fst (shr R e (fexp64 (Zdigits2 (shr_m R) + e) - e))).

(** The rounded value, in units of [2^e]. *)
Definition rounded (R : shr_record) (e : Z) : Z :=
  first_round R e * 2 ^ first_shift R e.

(** A double above zero, finite or not. *)
Definition positive_float (x : spec_float) : Prop :=
  match x with
  | S754_finite false _ _ | S754_infinity false => True
  | _ => False
  end.

(** The quotient [N / 100], with the place of the remainder. *)
Definition hundredth (N : Z) : shr_record :=
  shr_record_of_loc (N / 100) (new_location 100 (N mod 100)).

(** The places [a] is shifted by before it is divided by 100. *)
Definition cents_shift (a : positive) : Z :=
  - Z.min (fexp64 (Zdigits2 (Zpos a) - 7)) 0.

(** ** Readings of the salary and of the doubles *)

(** The salary after [n] passes of line 36. *)
Definition grown {T : Type} `{PyNumber T} (params : Params.t T) (n : nat) : T :=
  Nat.iter n (fun salary => mul salary (add (of_int 1) (growth_rate params)))
    (Params.starting_salary params).

(** The number a double stands for; infinities and NaN stand for none. *)
Definition exact_value (x : float) : option Q :=
  match Prim2SF x with
  | S754_zero _ => Some 0%Q
  | S754_finite s m e =>
      Some (if s then (- Q_of_finite m e)%Q else Q_of_finite m e)
  | _ => None
  end.

(** [abs(row['Total'] - (row['Cash'] + row['Invested']))], as Python
    computes it on the reported doubles. *)
Definition total_gap (row : Snapshot.t float) : float :=
  PrimFloat.abs
    (sub (Snapshot.Total row) (add (Snapshot.Cash row) (Snapshot.Invested row))).

(** The same difference on the numbers the reported doubles stand for. *)
Definition exact_total_gap (row : Snapshot.t float) : option Q :=
  match exact_value (Snapshot.Total row), exact_value (Snapshot.Cash row),
        exact_value (Snapshot.Invested row) with
  | Some t, Some c, Some i => Some (t - (c + i))%Q
  | _, _, _ => None
  end.

(** A salary of 50001 from the form, in the given industry. *)
Definition odd_salary {T : Type} `{PyNumber T} (industry : string) : Params.t T :=
  {| Params.starting_salary := of_int 50001;
     Params.rent := of_int 12000;
     Params.monthly_expenses := of_int 1000;
     Params.years := 2;
     Params.industry := industry;
     Params.investment_rate := literal 5 2;
     Params.invest_ratio := literal 5 1;
     Params.current_age := Some 30;
     Params.marriage_age := Some 40 |}.

(** A rent of 0.01, married from the first year. *)
Definition cent_rent {T : Type} `{PyNumber T} : Params.t T :=
  {| Params.starting_salary := of_int 60000;
     Params.rent := literal 1 2;
     Params.monthly_expenses := of_int 1000;
     Params.years := 2;
     Params.industry := "finance";
     Params.investment_rate := literal 5 2;
     Params.invest_ratio := literal 5 1;
     Params.current_age := Some 30;
     Params.marriage_age := Some 30 |}.

(** A salary of 1.7e308, whose first raise exceeds the largest double. *)
Definition overflowing {T : Type} `{PyNumber T} (ratio : T) : Params.t T :=
  {| Params.starting_salary := of_int (17 * 10 ^ 307);
     Params.rent := of_int 12000;
     Params.monthly_expenses := of_int 1000;
     Params.years := 2;
     Params.industry := "technology";
     Params.investment_rate := literal 5 2;
     Params.invest_ratio := ratio;
     Params.current_age := Some 30;
     Params.marriage_age := Some 40 |}.

(** The inputs of [uneven] with the return slider at 0.0. *)
Definition idle {T : Type} `{PyNumber T} : Params.t T :=
  {| Params.starting_salary := of_int 50001;
     Params.rent := of_int 12000;
     Params.monthly_expenses := of_int 1000;
     Params.years := 2;
     Params.industry := "technology";
     Params.investment_rate := literal 0 1;
     Params.invest_ratio := literal 35 2;
     Params.current_age := Some 30;
     Params.marriage_age := Some 40 |}.

Unset Implicit Arguments.

(** * Properties *)

(** ** The loop, one year at a time *)

Lemma range_nonpos (n : Z) : n <= 0 -> range 1 (n + 1) = [].
Proof.
  intros Hn. unfold range.
  replace (Z.to_nat (n + 1 - 1)) with O by lia. reflexivity.
Qed.

Lemma range_succ (n : nat) :
  range 1 (Z.of_nat (S n) + 1) = range 1 (Z.of_nat n + 1) ++ [Z.of_nat (S n)].
Proof.
  unfold range.
  replace (Z.to_nat (Z.of_nat (S n) + 1 - 1)) with (S n) by lia.
  replace (Z.to_nat (Z.of_nat n + 1 - 1)) with n by lia.
  rewrite seq_S, map_app. cbn [map]. do 2 f_equal. lia.
Qed.

Lemma for_each_app {S : Type} (body : S -> Z -> result S) (xs ys : list Z) (s : S) :
  for_each (xs ++ ys) body s = s' <- for_each xs body s ;; for_each ys body s'.
Proof.
  revert s. induction xs as [|x xs IH]; intros s; cbn [for_each app bind].
  - reflexivity.
  - destruct (body s x) as [s1|e]; cbn [bind]; [apply IH | reflexivity].
Qed.

Section Loop.
Context {T : Type} `{PyNumber T}.
Variable params : Params.t T.

Lemma run_loop_nonpos (n : Z) : n <= 0 -> run_loop params n = Ok (initial params).
Proof. intros Hn. unfold run_loop. now rewrite range_nonpos. Qed.

Lemma run_loop_succ (n : nat) :
  run_loop params (Z.of_nat (S n)) =
  st <- run_loop params (Z.of_nat n) ;; loop_body params st (Z.of_nat (S n)).
Proof.
  unfold run_loop. rewrite range_succ, for_each_app.
  destruct (for_each _ _ _) as [st|e]; cbn [bind for_each]; [|reflexivity].
  destruct (loop_body params st _); reflexivity.
Qed.

(** Without [current_age] every iteration stops at [None + year]: at
    line 39 when [marriage_age] is set, at line 57 otherwise. *)
Lemma loop_body_no_age (st : Locals.t T) (year : Z) :
  Params.current_age params = None ->
  loop_body params st year = Raise TypeError.
Proof.
  intros Hage. unfold loop_body, married. rewrite Hage.
  destruct (truthy _); reflexivity.
Qed.

Lemma married_wed (a year : Z) :
  Params.current_age params = Some a ->
  married params year = Ok (wed params a year).
Proof.
  intros Hage. unfold married, wed, truthy. rewrite Hage.
  destruct (Params.marriage_age params) as [m|]; [|reflexivity].
  destruct (m =? 0); reflexivity.
Qed.

Lemma loop_body_age (a : Z) (st : Locals.t T) (year : Z) :
  Params.current_age params = Some a ->
  loop_body params st year =
  Ok (carry st (figures params st (wed params a year))
        (snapshot year (a + year - 1) (figures params st (wed params a year)))).
Proof.
  intros Hage. unfold loop_body. rewrite (married_wed _ _ Hage), Hage. reflexivity.
Qed.

Lemma run_loop_returns (a : Z) (n : Z) :
  Params.current_age params = Some a ->
  exists st, run_loop params n = Ok st.
Proof.
  intros Hage. destruct (Z_le_gt_dec n 0) as [Hn|Hn].
  - eexists. now apply run_loop_nonpos.
  - rewrite <- (Z2Nat.id n) by lia. induction (Z.to_nat n) as [|k [st IH]].
    + eexists. now apply run_loop_nonpos.
    + rewrite run_loop_succ, IH. cbn [bind].
      rewrite (loop_body_age _ _ _ Hage). eauto.
Qed.

Lemma run_loop_raises (n : Z) :
  Params.current_age params = None -> 1 <= n ->
  run_loop params n = Raise TypeError.
Proof.
  intros Hage Hn. rewrite <- (Z2Nat.id n) by lia.
  destruct (Z.to_nat n) as [|k] eqn:E; [lia|].
  rewrite run_loop_succ.
  destruct (run_loop params (Z.of_nat k)) as [st|[]]; cbn [bind]; [|reflexivity].
  now apply loop_body_no_age.
Qed.

(** A run that returns after at least one year had [current_age]. *)
Lemma run_loop_age (n : nat) (st : Locals.t T) :
  run_loop params (Z.of_nat (S n)) = Ok st ->
  exists a, Params.current_age params = Some a.
Proof.
  intros Hrun. destruct (Params.current_age params) as [a|] eqn:Hage; [eauto|].
  rewrite run_loop_raises in Hrun by (auto; lia). discriminate.
Qed.

(** The step behind every induction on the number of years. *)
Lemma run_loop_step (n : nat) (st' : Locals.t T) :
  run_loop params (Z.of_nat (S n)) = Ok st' ->
  exists a st,
    Params.current_age params = Some a /\
    run_loop params (Z.of_nat n) = Ok st /\
    st' = carry st (figures params st (wed params a (Z.of_nat (S n))))
            (snapshot (Z.of_nat (S n)) (a + Z.of_nat (S n) - 1)
               (figures params st (wed params a (Z.of_nat (S n))))).
Proof.
  intros Hrun. destruct (run_loop_age _ _ Hrun) as [a Hage].
  exists a. rewrite run_loop_succ in Hrun.
  destruct (run_loop params (Z.of_nat n)) as [st|e]; cbn [bind] in Hrun;
    [|discriminate].
  exists st. rewrite (loop_body_age _ _ _ Hage) in Hrun.
  injection Hrun as <-. auto.
Qed.

Lemma frame_at_succ (a : Z) (n : nat) (st : Locals.t T) :
  Params.current_age params = Some a ->
  run_loop params (Z.of_nat n) = Ok st ->
  frame_at params (Z.of_nat (S n)) =
  Ok (figures params st (wed params a (Z.of_nat (S n)))).
Proof.
  intros Hage Hrun. unfold frame_at.
  replace (Z.of_nat (S n) - 1) with (Z.of_nat n) by lia.
  rewrite Hrun. cbn [bind]. rewrite (married_wed _ _ Hage). reflexivity.
Qed.

(** The rows of a run: one per year, each the snapshot of that year's
    frame. *)
Lemma run_loop_rows (n : nat) (st : Locals.t T) :
  run_loop params (Z.of_nat n) = Ok st ->
  List.length (Locals.results st) = n /\
  forall i row, nth_error (Locals.results st) i = Some row ->
    exists a fr,
      Params.current_age params = Some a /\
      frame_at params (Z.of_nat (S i)) = Ok fr /\
      row = snapshot (Z.of_nat (S i)) (a + Z.of_nat (S i) - 1) fr.
Proof.
  revert st. induction n as [|n IH]; intros st Hrun.
  - rewrite run_loop_nonpos in Hrun by lia. injection Hrun as <-.
    split; [reflexivity|]. intros [|i] row Hrow; discriminate.
  - destruct (run_loop_step _ _ Hrun) as (a & st0 & Hage & Hrun0 & ->).
    destruct (IH _ Hrun0) as [Hlen Hrows].
    cbn [carry Locals.results]. split.
    + rewrite length_app, Hlen. cbn. lia.
    + intros i row Hrow.
      destruct (Nat.lt_ge_cases i n) as [Hi|Hi].
      * rewrite nth_error_app1 in Hrow by lia. now apply Hrows.
      * rewrite nth_error_app2 in Hrow by lia. rewrite Hlen in Hrow.
        destruct (i - n)%nat as [|j] eqn:E; cbn in Hrow;
          [|destruct j; discriminate].
        assert (i = n) by lia. subst i. injection Hrow as <-.
        exists a. eexists. split; [exact Hage|]. split; [|reflexivity].
        now apply frame_at_succ.
Qed.

End Loop.

Section Projection.
Context {T : Type} `{PyNumber T}.
Variable params : Params.t T.

Lemma frame_at_inv (a year : Z) (fr : Frame.t T) :
  Params.current_age params = Some a ->
  frame_at params year = Ok fr ->
  exists st, run_loop params (year - 1) = Ok st /\
             fr = figures params st (wed params a year).
Proof.
  intros Hage Hfr. unfold frame_at in Hfr.
  destruct (run_loop params (year - 1)) as [st|e]; cbn [bind] in Hfr;
    [|discriminate].
  rewrite (married_wed _ _ _ Hage) in Hfr. cbn [bind] in Hfr.
  injection Hfr as <-. eauto.
Qed.

Lemma calculate_projection_inv (r : list (Snapshot.t T)) :
  calculate_projection params = Ok r ->
  exists st, run_loop params (Params.years params) = Ok st /\
             r = Locals.results st.
Proof.
  unfold calculate_projection. intros Hr.
  destruct (run_loop params (Params.years params)) as [st|e]; cbn [bind] in Hr;
    [|discriminate].
  injection Hr as <-. eauto.
Qed.

(** The function returns whenever [current_age] is an int. *)
Lemma calculate_projection_returns (a : Z) :
  Params.current_age params = Some a ->
  exists r, calculate_projection params = Ok r.
Proof.
  intros Hage. unfold calculate_projection.
  destruct (run_loop_returns params a (Params.years params) Hage) as [st ->].
  cbn [bind]. eauto.
Qed.

(** The rows of a returned projection. *)
Lemma calculate_projection_rows (r : list (Snapshot.t T)) :
  calculate_projection params = Ok r ->
  List.length r = Z.to_nat (Params.years params) /\
  forall i row, nth_error r i = Some row ->
    exists a fr,
      Params.current_age params = Some a /\
      frame_at params (Z.of_nat (S i)) = Ok fr /\
      row = snapshot (Z.of_nat (S i)) (a + Z.of_nat (S i) - 1) fr.
Proof.
  intros Hr. destruct (calculate_projection_inv _ Hr) as (st & Hrun & ->).
  destruct (Z_le_gt_dec (Params.years params) 0) as [Hy|Hy].
  - rewrite run_loop_nonpos in Hrun by assumption. injection Hrun as <-.
    cbn [initial Locals.results]. split.
    + cbn. lia.
    + intros [|i] row Hrow; discriminate.
  - rewrite <- (Z2Nat.id (Params.years params)) in Hrun by lia.
    now apply run_loop_rows.
Qed.

(** The frame of a year and the variables the loop carries out of it:
    the frame's own values, not the rounded ones of the row. *)
Lemma frame_carried (a : Z) (i : nat) (fr : Frame.t T) :
  Params.current_age params = Some a ->
  frame_at params (Z.of_nat (S i)) = Ok fr ->
  exists st,
    run_loop params (Z.of_nat i) = Ok st /\
    fr = figures params st (wed params a (Z.of_nat (S i))) /\
    run_loop params (Z.of_nat (S i)) =
    Ok (carry st fr (snapshot (Z.of_nat (S i)) (a + Z.of_nat (S i) - 1) fr)).
Proof.
  intros Hage Hfr. destruct (frame_at_inv _ _ _ Hage Hfr) as (st & Hrun & ->).
  replace (Z.of_nat (S i) - 1) with (Z.of_nat i) in Hrun by lia.
  exists st. split; [exact Hrun|]. split; [reflexivity|].
  rewrite run_loop_succ, Hrun. cbn [bind]. now apply loop_body_age.
Qed.

End Projection.

(** ** Properties that hold for every kind of number *)

Lemma for_each_ext {S : Type} (f g : S -> Z -> result S) (xs : list Z) (s : S) :
  (forall s' x, f s' x = g s' x) -> for_each xs f s = for_each xs g s.
Proof.
  intros Hfg. revert s. induction xs as [|x xs IH]; intros s; cbn [for_each].
  - reflexivity.
  - rewrite Hfg. destruct (g s x); cbn [bind]; [apply IH | reflexivity].
Qed.

Section Structure.
Context {T : Type} `{PyNumber T}.
Variable params : Params.t T.

(** C1.  A call without [current_age] (the form leaves both ages [None]
    when no marriage is planned) raises [TypeError] in its first year:
    line 57 adds [year] to [None].  The function is not total on the
    documented inputs. *)
Theorem projection_raises_without_current_age :
  Params.current_age params = None ->
  1 <= Params.years params ->
  calculate_projection params = Raise TypeError.
Proof.
  intros Hage Hyears. unfold calculate_projection.
  now rewrite run_loop_raises.
Qed.

(** C3.  A returned projection has exactly [years] rows, the i-th of
    them (counting from 1) with [Year = i]; and a projection is returned
    whenever [current_age] is given. *)
Theorem projection_length_and_years :
  1 <= Params.years params <= 50 ->
  (forall r, calculate_projection params = Ok r ->
     Z.of_nat (List.length r) = Params.years params /\
     forall i row, nth_error r i = Some row ->
       Snapshot.Year row = Z.of_nat i + 1) /\
  (Params.current_age params <> None ->
     exists r, calculate_projection params = Ok r).
Proof.
  intros Hyears. split.
  - intros r Hr. destruct (calculate_projection_rows _ _ Hr) as [Hlen Hrows].
    split; [lia|]. intros i row Hrow.
    destruct (Hrows _ _ Hrow) as (a & fr & _ & _ & ->).
    cbn [snapshot Snapshot.Year]. lia.
  - destruct (Params.current_age params) as [a|] eqn:Hage; [|congruence].
    intros _. now apply (calculate_projection_returns params a).
Qed.

(** C8.  An industry that is not a key of [INDUSTRY_GROWTH] gives the
    outcome of an industry whose rate in the table is the literal 0.03,
    field for field; the lookup falls back and raises nothing. *)
Theorem unknown_industry_as_default_rate (unknown listed : string) :
  dict_find (@INDUSTRY_GROWTH T _) unknown = None ->
  dict_find (@INDUSTRY_GROWTH T _) listed = Some (literal 3 2) ->
  List.length (@INDUSTRY_GROWTH T _) = 8%nat /\
  growth_rate (with_industry params unknown) = literal 3 2 /\
  calculate_projection (with_industry params unknown) =
  calculate_projection (with_industry params listed).
Proof.
  intros Hunknown Hlisted.
  assert (Hu : growth_rate (with_industry params unknown) = literal 3 2).
  { unfold growth_rate, dict_get. cbn [with_industry Params.industry].
    now rewrite Hunknown. }
  assert (Hl : growth_rate (with_industry params listed) = literal 3 2).
  { unfold growth_rate, dict_get. cbn [with_industry Params.industry].
    now rewrite Hlisted. }
  split; [reflexivity|]. split; [exact Hu|].
  unfold calculate_projection, run_loop. f_equal.
  apply for_each_ext. intros st year.
  unfold loop_body, figures. rewrite Hu, Hl. reflexivity.
Qed.

Lemma wed_set (a m year : Z) :
  Params.marriage_age params = Some m -> m <> 0 ->
  wed params a year = (m <=? a + year - 1).
Proof.
  intros Hm Hm0. unfold wed. rewrite Hm.
  destruct (Z.eqb_spec m 0); [contradiction | reflexivity].
Qed.

(** The rent a row reports: the rounded rent of its year. *)
Lemma row_rent (a : Z) (r : list (Snapshot.t T)) (i : nat) (row : Snapshot.t T) :
  Params.current_age params = Some a ->
  calculate_projection params = Ok r ->
  nth_error r i = Some row ->
  Snapshot.Rent row =
  round2 (if wed params a (Z.of_nat (S i))
          then mul (Params.rent params) (literal 8 1)
          else Params.rent params).
Proof.
  intros Hage Hr Hrow.
  destruct (calculate_projection_rows _ _ Hr) as [_ Hrows].
  destruct (Hrows _ _ Hrow) as (a' & fr & Hage' & Hfr & ->).
  destruct (frame_at_inv _ _ _ _ Hage Hfr) as (st & _ & ->).
  reflexivity.
Qed.

(** C4.  With both ages given and [marriage_age] not 0, the rent
    reported for a year is the rounded [rent * 0.8] when
    [current_age + year - 1 >= marriage_age] and the rounded [rent]
    otherwise: one reduction of the input rent, kept in every later
    year. *)
Theorem rent_by_year (a m : Z) :
  Params.current_age params = Some a ->
  Params.marriage_age params = Some m ->
  m <> 0 ->
  exists r,
    calculate_projection params = Ok r /\
    (forall i row, nth_error r i = Some row ->
       Snapshot.Rent row =
       if m <=? a + (Z.of_nat i + 1) - 1
       then round2 (mul (Params.rent params) (literal 8 1))
       else round2 (Params.rent params)) /\
    (forall i j row_i row_j,
       nth_error r i = Some row_i -> nth_error r j = Some row_j ->
       (i <= j)%nat ->
       Snapshot.Rent row_i <> round2 (Params.rent params) ->
       Snapshot.Rent row_j = round2 (mul (Params.rent params) (literal 8 1))).
Proof.
  intros Hage Hm Hm0.
  destruct (calculate_projection_returns params a Hage) as [r Hr].
  assert (Hrent : forall i row, nth_error r i = Some row ->
            Snapshot.Rent row =
            if m <=? a + (Z.of_nat i + 1) - 1
            then round2 (mul (Params.rent params) (literal 8 1))
            else round2 (Params.rent params)).
  { intros i row Hrow. rewrite (row_rent _ _ _ _ Hage Hr Hrow), (wed_set _ _ _ Hm Hm0).
    replace (Z.of_nat (S i)) with (Z.of_nat i + 1) by lia.
    now destruct (m <=? _). }
  exists r. split; [exact Hr|]. split; [exact Hrent|].
  intros i j row_i row_j Hi Hj Hij Hreduced.
  rewrite (Hrent _ _ Hi) in Hreduced. rewrite (Hrent _ _ Hj).
  destruct (Z.leb_spec m (a + (Z.of_nat i + 1) - 1)); [|contradiction].
  destruct (Z.leb_spec m (a + (Z.of_nat j + 1) - 1)); [reflexivity | lia].
Qed.

(** C10.  With both ages given, [marriage_age] not 0 and
    [marriage_age <= current_age], every row, the first included,
    reports the rounded [rent * 0.8]. *)
Theorem rent_reduced_every_year (a m : Z) :
  Params.current_age params = Some a ->
  Params.marriage_age params = Some m ->
  m <> 0 ->
  m <= a ->
  exists r,
    calculate_projection params = Ok r /\
    List.length r = Z.to_nat (Params.years params) /\
    forall row, In row r ->
      Snapshot.Rent row = round2 (mul (Params.rent params) (literal 8 1)).
Proof.
  intros Hage Hm Hm0 Hle.
  destruct (calculate_projection_returns params a Hage) as [r Hr].
  exists r. split; [exact Hr|].
  split; [apply (calculate_projection_rows _ _ Hr)|].
  intros row Hin. destruct (In_nth_error _ _ Hin) as [i Hrow].
  rewrite (row_rent _ _ _ _ Hage Hr Hrow), (wed_set _ _ _ Hm Hm0).
  destruct (Z.leb_spec m (a + Z.of_nat (S i) - 1)); [reflexivity | lia].
Qed.

End Structure.

(** ** The salary and the balances, for every kind of number *)

Section Figures.
Context {T : Type} `{PyNumber T}.
Variable params : Params.t T.
Local Abbreviation rate := (Params.investment_rate params).

Lemma salary_after (n : nat) (st : Locals.t T) :
  run_loop params (Z.of_nat n) = Ok st -> Locals.salary st = grown params n.
Proof.
  revert st. induction n as [|n IH]; intros st Hrun.
  - rewrite run_loop_nonpos in Hrun by lia. injection Hrun as <-. reflexivity.
  - destruct (run_loop_step _ _ _ Hrun) as (a & st0 & _ & Hrun0 & ->).
    cbn [carry Locals.salary figures Frame.salary].
    rewrite (IH _ Hrun0). reflexivity.
Qed.

Lemma frame_salary (i : nat) (fr : Frame.t T) :
  frame_at params (Z.of_nat (S i)) = Ok fr ->
  Frame.salary fr = grown params (S i).
Proof.
  intros Hfr. unfold frame_at in Hfr.
  replace (Z.of_nat (S i) - 1) with (Z.of_nat i) in Hfr by lia.
  destruct (run_loop params (Z.of_nat i)) as [st|e] eqn:Hrun; cbn [bind] in Hfr;
    [|discriminate].
  destruct (married params (Z.of_nat (S i))) as [b|e]; cbn [bind] in Hfr;
    [|discriminate].
  injection Hfr as <-. cbn [figures Frame.salary].
  rewrite (salary_after _ _ Hrun). reflexivity.
Qed.

(** The salary a row reports: the rounded salary of its year. *)
Lemma row_salary (r : list (Snapshot.t T)) (i : nat) (row : Snapshot.t T) :
  calculate_projection params = Ok r ->
  nth_error r i = Some row ->
  Snapshot.Salary row = round2 (grown params (S i)).
Proof.
  intros Hr Hrow. destruct (calculate_projection_rows _ _ Hr) as [_ Hrows].
  destruct (Hrows _ _ Hrow) as (a & fr & _ & Hfr & ->).
  cbn [snapshot Snapshot.Salary]. now rewrite (frame_salary _ _ Hfr).
Qed.

(** The balance a row reports: the rounded balance of its year, which
    is the balance of the year before times [1 + investment_rate], plus
    the contribution of the year. *)
Lemma row_invested (r : list (Snapshot.t T)) (i : nat) (row : Snapshot.t T) :
  calculate_projection params = Ok r ->
  nth_error r i = Some row ->
  exists fr,
    frame_at params (Z.of_nat (S i)) = Ok fr /\
    Snapshot.Invested row = round2 (Frame.invested fr) /\
    (i = O ->
     Frame.invested fr
     = add (mul (of_int 0) (add (of_int 1) rate)) (Frame.to_invest fr)) /\
    (forall j, i = S j ->
       exists prev,
         frame_at params (Z.of_nat i) = Ok prev /\
         Frame.invested fr
         = add (mul (Frame.invested prev) (add (of_int 1) rate))
               (Frame.to_invest fr)).
Proof.
  intros Hr Hrow. destruct (calculate_projection_rows _ _ Hr) as [_ Hrows].
  destruct (Hrows _ _ Hrow) as (a & fr & Hage & Hfr & ->).
  exists fr. split; [exact Hfr|]. split; [reflexivity|].
  destruct (frame_carried _ _ _ _ Hage Hfr) as (st & Hrun & Hfigures & _).
  assert (Hstep : Frame.invested fr
                  = add (mul (Locals.invested st) (add (of_int 1) rate))
                        (Frame.to_invest fr)).
  { rewrite Hfigures. reflexivity. }
  split.
  - intros ->. rewrite run_loop_nonpos in Hrun by lia. injection Hrun as <-.
    exact Hstep.
  - intros j ->.
    destruct (run_loop_step _ _ _ Hrun) as (a' & st0 & Hage' & Hrun0 & Hst).
    exists (figures params st0 (wed params a (Z.of_nat (S j)))).
    split; [now apply frame_at_succ|].
    rewrite Hstep, Hst. replace a' with a by congruence. reflexivity.
Qed.


End Figures.

(** ** The arithmetic of doubles

    What the engine needs of IEEE binary64, from the specification of
    the operations ([SpecFloat]): a product by 1.0 is exact, a positive
    double times a factor in [1, 2) is no smaller, and the double
    nearest to [a / 100] grows with [a]. *)

(** *** Digits *)
Lemma digits2_pos_size (p : positive) : digits2_pos p = Pos.size p.
Proof. induction p; cbn; congruence. Qed.

Lemma Zdigits2_log2 (m : Z) : 0 < m -> Zdigits2 m = Z.log2 m + 1.
Proof.
  destruct m as [|p|p]; try lia. intros _. cbn [Zdigits2].
  rewrite digits2_pos_size. destruct p; cbn; lia.
Qed.

Lemma Zdigits2_nonneg (m : Z) : 0 <= Zdigits2 m.
Proof. destruct m; cbn; lia. Qed.

Lemma Zdigits2_bounds (m : Z) :
  0 < m -> 2 ^ (Zdigits2 m - 1) <= m < 2 ^ Zdigits2 m.
Proof.
  intros Hm. rewrite (Zdigits2_log2 m Hm).
  replace (Z.log2 m + 1 - 1) with (Z.log2 m) by lia.
  replace (Z.log2 m + 1) with (Z.succ (Z.log2 m)) by lia.
  now apply Z.log2_spec.
Qed.

Lemma Zdigits2_upper (m : Z) : 0 <= m -> m < 2 ^ Zdigits2 m.
Proof.
  intros Hm. destruct (Z.eq_dec m 0) as [->|]; [reflexivity|].
  apply Zdigits2_bounds. lia.
Qed.

Lemma Zdigits2_mono (m1 m2 : Z) : 0 <= m1 <= m2 -> Zdigits2 m1 <= Zdigits2 m2.
Proof.
  intros [H1 H2]. destruct (Z.eq_dec m1 0) as [->|].
  - apply Zdigits2_nonneg.
  - rewrite !Zdigits2_log2 by lia. pose proof (Z.log2_le_mono m1 m2 H2). lia.
Qed.

Lemma Zdigits2_unique (m d : Z) : 2 ^ (d - 1) <= m < 2 ^ d -> 0 < m -> Zdigits2 m = d.
Proof.
  intros Hd Hm. rewrite Zdigits2_log2 by lia.
  assert (0 <= d - 1).
  { destruct (Z_lt_le_dec (d - 1) 0) as [Hneg|]; [|lia].
    assert (d <= 0) by lia. 
    destruct (Z.eq_dec d 0) as [->|]; [cbn in Hd; lia|].
    rewrite (Z.pow_neg_r 2 d) in Hd by lia. lia. }
  rewrite (Z.log2_unique m (d - 1)); [lia | lia |].
  replace (Z.succ (d - 1)) with d by lia. exact Hd.
Qed.

Lemma Zdigits2_div (m k : Z) :
  0 <= m -> 0 <= k -> Zdigits2 (m / 2 ^ k) = Z.max 0 (Zdigits2 m - k).
Proof.
  intros Hm Hk. destruct (Z.eq_dec m 0) as [->|Hm0].
  - rewrite Z.div_0_l by lia. cbn [Zdigits2]. lia.
  - pose proof (Zdigits2_bounds m ltac:(lia)) as Hb.
    destruct (Z_lt_le_dec (Zdigits2 m - k) 1) as [Hsmall|Hbig].
    + assert (m / 2 ^ k = 0) as ->.
      { apply Z.div_small. split; [lia|].
        apply Z.lt_le_trans with (2 ^ Zdigits2 m); [lia|].
        apply Z.pow_le_mono_r; lia. }
      pose proof (Zdigits2_nonneg m). cbn [Zdigits2]. lia.
    + rewrite Z.max_r by lia.
      assert (Hpow : 2 ^ (Zdigits2 m - 1) = 2 ^ (Zdigits2 m - k - 1) * 2 ^ k).
      { rewrite <- Z.pow_add_r by lia. f_equal. lia. }
      assert (Hpow' : 2 ^ Zdigits2 m = 2 ^ (Zdigits2 m - k) * 2 ^ k).
      { rewrite <- Z.pow_add_r by lia. f_equal. lia. }
      assert (0 < 2 ^ k) by (apply Z.pow_pos_nonneg; lia).
      assert (Hlow : 2 ^ (Zdigits2 m - k - 1) <= m / 2 ^ k).
      { apply Z.div_le_lower_bound; lia. }
      assert (Hup : m / 2 ^ k < 2 ^ (Zdigits2 m - k)).
      { apply Z.div_lt_upper_bound; lia. }
      assert (0 < 2 ^ (Zdigits2 m - k - 1)) by (apply Z.pow_pos_nonneg; lia).
      apply Zdigits2_unique; lia.
Qed.


Lemma shr_1_m (R : shr_record) : 0 <= shr_m R -> shr_m (shr_1 R) = shr_m R / 2.
Proof.
  destruct R as [m r s]. cbn [shr_m]. intros Hm.
  destruct m as [|[p|p|]|p]; try lia; cbn [shr_1 shr_m].
  - reflexivity.
  - apply Z.div_unique with 1; lia.
  - apply Z.div_unique with 0; lia.
  - reflexivity.
Qed.

Lemma shr_1_key (R1 R2 : shr_record) :
  0 <= shr_m R1 -> key R1 <= key R2 -> key (shr_1 R1) <= key (shr_1 R2).
Proof.
  destruct R1 as [m1 r1 s1], R2 as [m2 r2 s2]. unfold key. cbn [shr_m shr_r shr_s].
  intros Hm1 HK.
  assert (Hm2 : 0 <= m2) by (destruct r1, s1, r2, s2; lia).
  destruct m1 as [|[p1|p1|]|p1]; try lia;
    destruct m2 as [|[p2|p2|]|p2]; try lia;
    cbn [shr_1 shr_m shr_r shr_s orb];
    destruct r1, s1, r2, s2; cbn [orb]; lia.
Qed.

Lemma iter_pos_shr_1 (p : positive) (R : shr_record) :
  0 <= shr_m R ->
  shr_m (SpecFloat.iter_pos shr_1 p R) = shr_m R / 2 ^ Zpos p.
Proof.
  revert R. induction p as [p IH|p IH|]; intros R Hm; cbn [SpecFloat.iter_pos].
  - assert (H1 : 0 <= shr_m (shr_1 R)).
    { rewrite shr_1_m by exact Hm. apply Z.div_pos; lia. }
    assert (H2 : 0 <= shr_m (SpecFloat.iter_pos shr_1 p (shr_1 R))).
    { rewrite IH by exact H1. apply Z.div_pos; [lia|]. apply Z.pow_pos_nonneg; lia. }
    rewrite IH by exact H2. rewrite IH by exact H1. rewrite shr_1_m by exact Hm.
    rewrite !Z.div_div by (try apply Z.pow_pos_nonneg; lia).
    f_equal. replace (Z.pos p~1) with (1 + Z.pos p + Z.pos p) by lia.
    rewrite !Z.pow_add_r by lia. lia.
  - assert (H2 : 0 <= shr_m (SpecFloat.iter_pos shr_1 p R)).
    { rewrite IH by exact Hm. apply Z.div_pos; [lia|]. apply Z.pow_pos_nonneg; lia. }
    rewrite IH by exact H2. rewrite IH by exact Hm.
    rewrite !Z.div_div by (try apply Z.pow_pos_nonneg; lia).
    f_equal. replace (Z.pos p~0) with (Z.pos p + Z.pos p) by lia.
    rewrite !Z.pow_add_r by lia. lia.
  - rewrite shr_1_m by exact Hm. reflexivity.
Qed.

Lemma iter_pos_shr_1_key (p : positive) (R1 R2 : shr_record) :
  0 <= shr_m R1 -> key R1 <= key R2 ->
  key (SpecFloat.iter_pos shr_1 p R1) <= key (SpecFloat.iter_pos shr_1 p R2).
Proof.
  revert R1 R2. induction p as [p IH|p IH|]; intros R1 R2 Hm HK; cbn [SpecFloat.iter_pos].
  - assert (H1 : 0 <= shr_m (shr_1 R1)).
    { rewrite shr_1_m by exact Hm. apply Z.div_pos; lia. }
    apply IH.
    + rewrite iter_pos_shr_1 by exact H1. apply Z.div_pos; [lia|].
      apply Z.pow_pos_nonneg; lia.
    + apply IH; [exact H1|]. now apply shr_1_key.
  - apply IH.
    + rewrite iter_pos_shr_1 by exact Hm. apply Z.div_pos; [lia|].
      apply Z.pow_pos_nonneg; lia.
    + now apply IH.
  - now apply shr_1_key.
Qed.

(** The shift of [shr]: by [n] places when [n] is positive. *)
Lemma shr_m_shr (R : shr_record) (e n : Z) :
  0 <= shr_m R ->
  shr_m (fst (shr R e n)) = shr_m R / 2 ^ Z.max 0 n /\
  snd (shr R e n) = e + Z.max 0 n.
Proof.
  intros Hm. destruct n as [|p|p]; cbn [shr fst snd].
  - cbn. rewrite Z.div_1_r. lia.
  - rewrite iter_pos_shr_1 by exact Hm. rewrite Z.max_r by lia. lia.
  - cbn. rewrite Z.div_1_r. lia.
Qed.

Lemma shr_key (R1 R2 : shr_record) (e n : Z) :
  0 <= shr_m R1 -> key R1 <= key R2 ->
  key (fst (shr R1 e n)) <= key (fst (shr R2 e n)).
Proof.
  intros Hm HK. destruct n as [|p|p]; cbn [shr fst]; try exact HK.
  now apply iter_pos_shr_1_key.
Qed.


Lemma rne_bounds (R : shr_record) : shr_m R <= rne R <= shr_m R + 1.
Proof.
  destruct R as [m [|] [|]]; unfold rne; cbn; try lia.
  destruct (Z.even m); lia.
Qed.

Lemma rne_key (R1 R2 : shr_record) : key R1 <= key R2 -> rne R1 <= rne R2.
Proof.
  destruct R1 as [m1 r1 s1], R2 as [m2 r2 s2]. unfold key, rne.
  cbn [shr_m shr_r shr_s]. intros HK.
  destruct r1, s1, r2, s2; cbn [loc_of_shr_record round_nearest_even];
    try lia;
    repeat match goal with
           | |- context [Z.even ?m] => 
               let E := fresh "E" in destruct (Z.even m) eqn:E
           end; try lia.
  all: destruct (Z.eq_dec m1 m2); [subst; congruence | lia].
Qed.

(** *** The format *)

Lemma fexp64_eq (x : Z) : fexp64 x = Z.max (x - 53) (-1074).
Proof. reflexivity. Qed.

Lemma shr_max (R : shr_record) (e t : Z) : shr R e t = shr R e (Z.max 0 t).
Proof. destruct t; reflexivity. Qed.




Lemma key_m (R1 R2 : shr_record) :
  0 <= shr_m R1 -> key R1 <= key R2 -> shr_m R1 <= shr_m R2.
Proof.
  destruct R1 as [m1 r1 s1], R2 as [m2 r2 s2]. unfold key. cbn [shr_m shr_r shr_s].
  destruct r1, s1, r2, s2; lia.
Qed.

Lemma first_round_bounds (R : shr_record) (e : Z) :
  0 <= shr_m R ->
  shr_m R / 2 ^ first_shift R e <= first_round R e
  <= shr_m R / 2 ^ first_shift R e + 1.
Proof.
  intros Hm. unfold first_round, first_shift.
  destruct (shr_m_shr R e (fexp64 (Zdigits2 (shr_m R) + e) - e) Hm) as [<- _].
  apply rne_bounds.
Qed.

Lemma rounded_mono (R1 R2 : shr_record) (e : Z) :
  0 <= shr_m R1 -> key R1 <= key R2 -> rounded R1 e <= rounded R2 e.
Proof.
  intros Hm HK. pose proof (key_m _ _ Hm HK) as Hm12.
  assert (Hm2 : 0 <= shr_m R2) by lia.
  pose proof (Zdigits2_mono _ _ (conj Hm Hm12)) as HD.
  pose proof (first_round_bounds R1 e Hm) as Hb1.
  pose proof (first_round_bounds R2 e Hm2) as Hb2.
  unfold rounded.
  assert (Hn : first_shift R1 e <= first_shift R2 e).
  { unfold first_shift. rewrite !fexp64_eq. lia. }
  assert (Hn1 : 0 <= first_shift R1 e) by (unfold first_shift; lia).
  destruct (Z.eq_dec (first_shift R1 e) (first_shift R2 e)) as [Heq|Hne].
  - rewrite <- Heq.
    assert (first_round R1 e <= first_round R2 e).
    { unfold first_round. rewrite (shr_max R1), (shr_max R2).
      fold (first_shift R1 e). fold (first_shift R2 e). rewrite <- Heq.
      apply rne_key. now apply shr_key. }
    apply Z.mul_le_mono_nonneg_r; [|assumption].
    apply Z.pow_nonneg; lia.
  - set (n1 := first_shift R1 e) in *. set (n2 := first_shift R2 e) in *.
    set (D1 := Zdigits2 (shr_m R1)) in *. set (D2 := Zdigits2 (shr_m R2)) in *.
    assert (Hn2 : n2 = D2 - 53 /\ D1 < D2).
    { subst n1 n2. unfold first_shift in *. fold D1 D2 in Hn, Hne |- *.
      rewrite !fexp64_eq in *. lia. }
    destruct Hn2 as [Hn2 HD12].
    assert (HD1 : 0 <= D1) by apply Zdigits2_nonneg.
    assert (Hm2pos : 0 < shr_m R2).
    { destruct (Z.eq_dec (shr_m R2) 0) as [E|]; [|lia].
      subst D2. rewrite E in HD12. cbn in HD12. lia. }
    pose proof (Zdigits2_bounds _ Hm2pos) as HB2. fold D2 in HB2.
    pose proof (Zdigits2_upper _ Hm) as HB1. fold D1 in HB1.
    assert (Hp1 : 0 < 2 ^ n1) by (apply Z.pow_pos_nonneg; lia).
    assert (Hp2 : 0 < 2 ^ n2) by (apply Z.pow_pos_nonneg; lia).
    apply Z.le_trans with (2 ^ (D2 - 1)).
    + apply Z.le_trans with ((shr_m R1 / 2 ^ n1 + 1) * 2 ^ n1).
      { apply Z.mul_le_mono_nonneg_r; lia. }
      destruct (Z_le_gt_dec n1 D1) as [Hle|Hgt].
      * apply Z.le_trans with (2 ^ D1); [|apply Z.pow_le_mono_r; lia].
        assert (Hsplit : 2 ^ D1 = 2 ^ (D1 - n1) * 2 ^ n1).
        { rewrite <- Z.pow_add_r by lia. f_equal. lia. }
        assert (shr_m R1 / 2 ^ n1 < 2 ^ (D1 - n1)).
        { apply Z.div_lt_upper_bound; lia. }
        rewrite Hsplit. apply Z.mul_le_mono_nonneg_r; lia.
      * assert (shr_m R1 / 2 ^ n1 = 0) as ->.
        { apply Z.div_small. split; [lia|].
          apply Z.lt_le_trans with (2 ^ D1); [lia|].
          apply Z.pow_le_mono_r; lia. }
        rewrite Z.add_0_l, Z.mul_1_l. apply Z.pow_le_mono_r; lia.
    + apply Z.le_trans with (shr_m R2 / 2 ^ n2 * 2 ^ n2).
      * assert (Hsplit : 2 ^ (D2 - 1) = 2 ^ (D2 - 1 - n2) * 2 ^ n2).
        { rewrite <- Z.pow_add_r by lia. f_equal. lia. }
        rewrite Hsplit. apply Z.mul_le_mono_nonneg_r; [lia|].
        apply Z.div_le_lower_bound; lia.
      * apply Z.mul_le_mono_nonneg_r; lia.
Qed.

Lemma shr_m_of_loc (m : Z) (l : location) : shr_m (shr_record_of_loc m l) = m.
Proof. destruct l as [|[]]; reflexivity. Qed.

Lemma Zdigits2_le (x d : Z) : 0 <= x < 2 ^ d -> 0 <= d -> Zdigits2 x <= d.
Proof.
  intros [Hx Hlt] Hd. destruct (Z.eq_dec x 0) as [->|]; [cbn; lia|].
  pose proof (Zdigits2_bounds x ltac:(lia)) as [Hlow _].
  destruct (Z_le_gt_dec (Zdigits2 x) d) as [|Hgt]; [assumption|].
  assert (2 ^ d <= 2 ^ (Zdigits2 x - 1)) by (apply Z.pow_le_mono_r; lia). lia.
Qed.

Lemma Zdigits2_pow2 (d : Z) : 0 <= d -> Zdigits2 (2 ^ d) = d + 1.
Proof.
  intros Hd. assert (0 < 2 ^ d) by (apply Z.pow_pos_nonneg; lia).
  apply Zdigits2_unique; [|assumption].
  replace (d + 1 - 1) with d by lia. split; [lia|].
  apply Z.pow_lt_mono_r; lia.
Qed.

(** What [binary_round_aux] returns on a mantissa that is fine enough:
    a zero, or the canonical float of the rounded value, or an infinity
    when its exponent is out of range. *)
Lemma binary_round_aux_rounded (s : bool) (m e : Z) (l : location) :
  0 <= m -> e <= fexp64 (Zdigits2 m + e) ->
  (rounded (shr_record_of_loc m l) e = 0 /\
   binary_round_aux prec emax s m e l = S754_zero s) \/
  (exists p e3,
     rounded (shr_record_of_loc m l) e = Zpos p * 2 ^ (e3 - e) /\
     e + first_shift (shr_record_of_loc m l) e <= e3 /\
     canonical_mantissa prec emax p e3 = true /\
     binary_round_aux prec emax s m e l =
     if e3 <=? emax - prec then S754_finite s p e3 else S754_infinity s).
Proof.
  intros Hm Hfine. set (R := shr_record_of_loc m l).
  assert (HRm : shr_m R = m) by apply shr_m_of_loc.
  assert (HR0 : 0 <= shr_m R) by lia.
  set (f := fexp64 (Zdigits2 m + e)) in *.
  set (n := f - e).
  assert (Hn : 0 <= n) by (subst n; lia).
  destruct (shr_m_shr R e n HR0) as [Hm' He'].
  rewrite Z.max_r in Hm', He' by exact Hn.
  pose proof (first_round_bounds R e HR0) as Hb.
  unfold rounded. unfold first_shift, first_round in *. rewrite HRm in *.
  fold f in Hb |- *. fold n in Hb |- *. rewrite Z.max_r in Hb |- * by exact Hn.
  unfold binary_round_aux, shr_fexp. fold R. fold f. fold n.
  destruct (shr R e n) as [R' e'] eqn:E1. cbn [fst snd] in *.
  fold (rne R') in *. set (m'' := rne R') in *. subst e'.
  replace (e + n) with f by (subst n; lia).
  set (m' := m / 2 ^ n) in *.
  assert (Hm'0 : 0 <= m').
  { subst m'. apply Z.div_pos; [lia|]. apply Z.pow_pos_nonneg; lia. }
  assert (HD' : Zdigits2 m' = Z.max 0 (Zdigits2 m - n)).
  { subst m'. now apply Zdigits2_div. }
  pose proof (Zdigits2_nonneg m) as HD0.
  assert (Hc1 : fexp64 (Zdigits2 m' + f) = f).
  { rewrite HD'. subst n f. rewrite !fexp64_eq in *. lia. }
  assert (Hm''0 : 0 <= m'') by lia.
  pose proof (Zdigits2_mono m' m'' ltac:(lia)) as HDlow.
  pose proof (Zdigits2_upper m' Hm'0) as Hup'.
  pose proof (Zdigits2_nonneg m') as HD'0.
  assert (HDup : Zdigits2 m'' <= Zdigits2 m' + 1).
  { destruct (Z.eq_dec m'' (2 ^ Zdigits2 m')) as [->|Hne].
    - rewrite Zdigits2_pow2 by lia. lia.
    - pose proof (Zdigits2_le m'' (Zdigits2 m') ltac:(lia) ltac:(lia)). lia. }
  set (k := fexp64 (Zdigits2 m'' + f) - f).
  assert (Hk : k = 0 \/ (k = 1 /\ Zdigits2 m'' = Zdigits2 m' + 1 /\ 1 <= Zdigits2 m')).
  { subst k. rewrite !fexp64_eq in *. lia. }
  cbn [shr_record_of_loc].
  destruct Hk as [Hk|(Hk & HDk & HD1)]; rewrite Hk.
  - cbn [shr shr_m].
    destruct m'' as [|p|p] eqn:Em; [left|right|lia].
    + split; [lia | reflexivity].
    + exists p, f. split; [f_equal; f_equal; subst n; lia|].
      split; [lia|]. split; [|reflexivity].
      unfold canonical_mantissa. apply Z.eqb_eq.
      change (Z.pos (digits2_pos p)) with (Zdigits2 (Z.pos p)). lia.
  - assert (Em : m'' = 2 ^ Zdigits2 m').
    { assert (0 < m'').
      { destruct (Z.eq_dec m'' 0) as [E|]; [|lia]. rewrite E in HDk. cbn in HDk. lia. }
      pose proof (Zdigits2_bounds m'' ltac:(lia)) as [Hlow _].
      rewrite HDk in Hlow. replace (Zdigits2 m' + 1 - 1) with (Zdigits2 m') in Hlow by lia.
      lia. }
    assert (Hhalf : m'' / 2 ^ 1 = 2 ^ (Zdigits2 m' - 1)).
    { rewrite Em. rewrite <- Z.pow_sub_r by lia. reflexivity. }
    pose proof (shr_m_shr {| shr_m := m''; shr_r := false; shr_s := false |} f 1
                  ltac:(cbn; lia)) as [Hs1 Hs2].
    cbn [shr_m] in Hs1. rewrite Z.max_r in Hs1, Hs2 by lia.
    destruct (shr {| shr_m := m''; shr_r := false; shr_s := false |} f 1)
      as [R3 e3] eqn:E3. cbn [fst snd] in Hs1, Hs2. subst e3.
    rewrite Hs1, Hhalf.
    assert (Hpos : 0 < 2 ^ (Zdigits2 m' - 1)) by (apply Z.pow_pos_nonneg; lia).
    destruct (2 ^ (Zdigits2 m' - 1)) as [|p|p] eqn:Ep; try lia.
    right. exists p, (f + 1). split; [|split; [lia|split; [|reflexivity]]].
    + rewrite Em. replace (f + 1 - e) with (n + 1) by (subst n; lia).
      rewrite Z.pow_add_r by lia.
      replace (Zdigits2 m') with (Zdigits2 m' - 1 + 1) at 1 by lia.
      rewrite Z.pow_add_r by lia. rewrite Ep. lia.
    + unfold canonical_mantissa. apply Z.eqb_eq.
      change (Z.pos (digits2_pos p)) with (Zdigits2 (Z.pos p)).
      rewrite <- Ep, Zdigits2_pow2 by lia.
      subst k. rewrite HDk in Hk. 
      replace (Zdigits2 m' - 1 + 1 + (f + 1)) with (Zdigits2 m' + 1 + f) by lia.
      lia.
Qed.

Lemma canonical_digits (p : positive) (e : Z) :
  canonical_mantissa prec emax p e = true ->
  fexp64 (Zdigits2 (Zpos p) + e) = e.
Proof. unfold canonical_mantissa. intros H. now apply Z.eqb_eq in H. Qed.

(** Canonical floats are ordered as their values are. *)
Lemma canonical_order (p1 p2 : positive) (e1 e2 e0 : Z) :
  canonical_mantissa prec emax p1 e1 = true ->
  canonical_mantissa prec emax p2 e2 = true ->
  e0 <= e1 -> e0 <= e2 ->
  Zpos p1 * 2 ^ (e1 - e0) <= Zpos p2 * 2 ^ (e2 - e0) ->
  e1 < e2 \/ (e1 = e2 /\ (p1 <= p2)%positive).
Proof.
  intros H1 H2 He1 He2 Hle.
  apply canonical_digits in H1, H2. rewrite fexp64_eq in H1, H2.
  pose proof (Zdigits2_bounds (Zpos p1) ltac:(lia)) as [Hl1 Hu1].
  pose proof (Zdigits2_bounds (Zpos p2) ltac:(lia)) as [Hl2 Hu2].
  destruct (Z.lt_trichotomy e1 e2) as [Hlt|[Heq|Hgt]]; [left; exact Hlt| |].
  - right. split; [exact Heq|]. subst e2.
    assert (0 < 2 ^ (e1 - e0)) by (apply Z.pow_pos_nonneg; lia).
    apply Z.mul_le_mono_pos_r in Hle; [|assumption]. lia.
  - exfalso.
    assert (HD1 : Zdigits2 (Zpos p1) = 53) by lia.
    assert (HD2 : Zdigits2 (Zpos p2) <= 53) by lia.
    rewrite HD1 in Hl1. change (2 ^ (53 - 1)) with 4503599627370496 in Hl1.
    assert (Hu2' : Zpos p2 < 9007199254740992).
    { apply Z.lt_le_trans with (2 ^ Zdigits2 (Zpos p2)); [lia|].
      change 9007199254740992 with (2 ^ 53). apply Z.pow_le_mono_r; lia. }
    assert (Hsplit : 2 ^ (e1 - e0) = 2 ^ (e1 - e2) * 2 ^ (e2 - e0)).
    { rewrite <- Z.pow_add_r by lia. f_equal. lia. }
    assert (Hstep : 2 <= 2 ^ (e1 - e2)).
    { change 2 with (2 ^ 1) at 1. apply Z.pow_le_mono_r; lia. }
    assert (Hq : 0 < 2 ^ (e2 - e0)) by (apply Z.pow_pos_nonneg; lia).
    rewrite Hsplit in Hle. nia.
Qed.

Lemma SFleb_finite (p1 p2 : positive) (e1 e2 : Z) :
  e1 < e2 \/ (e1 = e2 /\ (p1 <= p2)%positive) ->
  SFleb (S754_finite false p1 e1) (S754_finite false p2 e2) = true.
Proof.
  unfold SFleb. cbn [SFcompare]. intros [Hlt|[-> Hle]].
  - apply Z.compare_lt_iff in Hlt. now rewrite Hlt.
  - rewrite Z.compare_refl. change (Pos.compare_cont Eq p1 p2) with (p1 ?= p2)%positive.
    unfold Pos.le in Hle. now destruct (p1 ?= p2)%positive.
Qed.

(** Rounding keeps the order: of two located mantissas at one exponent,
    the smaller rounds to the smaller float. *)
Lemma binary_round_aux_mono (m1 m2 e : Z) (l1 l2 : location) :
  0 <= m1 -> e <= fexp64 (Zdigits2 m1 + e) ->
  key (shr_record_of_loc m1 l1) <= key (shr_record_of_loc m2 l2) ->
  SFleb (binary_round_aux prec emax false m1 e l1)
        (binary_round_aux prec emax false m2 e l2) = true.
Proof.
  intros Hm1 Hfine HK.
  assert (HR1 : 0 <= shr_m (shr_record_of_loc m1 l1)) by (rewrite shr_m_of_loc; lia).
  pose proof (key_m _ _ HR1 HK) as Hm12. rewrite !shr_m_of_loc in Hm12.
  pose proof (Zdigits2_mono m1 m2 ltac:(lia)) as HD.
  assert (Hfine2 : e <= fexp64 (Zdigits2 m2 + e)) by (rewrite fexp64_eq in *; lia).
  pose proof (rounded_mono _ _ e HR1 HK) as HV.
  destruct (binary_round_aux_rounded false m1 e l1 Hm1 Hfine)
    as [[HV1 ->]|(p1 & e1 & HV1 & He1 & Hc1 & ->)];
    destruct (binary_round_aux_rounded false m2 e l2 ltac:(lia) Hfine2)
      as [[HV2 ->]|(p2 & e2 & HV2 & He2 & Hc2 & ->)].
  - reflexivity.
  - destruct (e2 <=? emax - prec); reflexivity.
  - exfalso. rewrite HV1, HV2 in HV.
    assert (e <= e1) by (unfold first_shift in He1; lia).
    assert (0 < 2 ^ (e1 - e)) by (apply Z.pow_pos_nonneg; lia). nia.
  - rewrite HV1, HV2 in HV.
    assert (He1' : e <= e1) by (unfold first_shift in He1; lia).
    assert (He2' : e <= e2) by (unfold first_shift in He2; lia).
    pose proof (canonical_order _ _ _ _ _ Hc1 Hc2 He1' He2' HV) as Horder.
    destruct (Z.leb_spec e1 (emax - prec)), (Z.leb_spec e2 (emax - prec)).
    + now apply SFleb_finite.
    + reflexivity.
    + exfalso. lia.
    + reflexivity.
Qed.

(** *** Products *)

Lemma digits2_shift (m : positive) :
  Zpos (digits2_pos (m * 4503599627370496)) = Zpos (digits2_pos m) + 52.
Proof. rewrite Pos.mul_comm. cbn [Pos.mul digits2_pos]. lia. Qed.

Lemma shr_shift (m : positive) :
  SpecFloat.iter_pos shr_1 52
    {| shr_m := Zpos (m * 4503599627370496); shr_r := false; shr_s := false |}
  = {| shr_m := Zpos m; shr_r := false; shr_s := false |}.
Proof. rewrite Pos.mul_comm. reflexivity. Qed.

Lemma SFmul_one (x : spec_float) :
  valid_binary x = true ->
  SF64mul x (S754_finite false 4503599627370496 (-52)) = x.
Proof.
  destruct x as [s|s| |s m e]; intros Hv; cbn [SF64mul SFmul].
  - now destruct s.
  - now destruct s.
  - reflexivity.
  - cbn [valid_binary] in Hv. unfold bounded, canonical_mantissa in Hv.
    apply andb_prop in Hv. destruct Hv as [Hc He]. apply Z.eqb_eq in Hc.
    unfold binary_round_aux, shr_fexp.
    cbn [Zdigits2 shr_record_of_loc]. rewrite digits2_shift.
    replace (Z.pos (digits2_pos m) + 52 + (e + -52))
      with (Z.pos (digits2_pos m) + e) by lia.
    rewrite Hc. replace (e - (e + -52)) with 52 by lia.
    cbn [shr]. rewrite shr_shift.
    cbn [shr_m loc_of_shr_record round_nearest_even Zdigits2 shr_record_of_loc].
    replace (e + -52 + 52) with e by lia.
    rewrite Hc, Z.sub_diag. cbn [shr shr_m]. rewrite He. now destruct s.
Qed.

(** A positive float times a factor in [1, 2) is no smaller. *)
Lemma SFmul_raise (mx mc : positive) (ex : Z) :
  valid_binary (S754_finite false mx ex) = true ->
  (4503599627370496 <= mc)%positive ->
  SFleb (S754_finite false mx ex)
        (SF64mul (S754_finite false mx ex) (S754_finite false mc (-52))) = true.
Proof.
  intros Hv Hmc. rewrite <- (SFmul_one _ Hv) at 1.
  cbn [SF64mul SFmul xorb].
  cbn [valid_binary] in Hv. unfold bounded in Hv.
  apply andb_prop in Hv. destruct Hv as [Hc _]. apply canonical_digits in Hc.
  apply binary_round_aux_mono.
  - lia.
  - cbn [Zdigits2] in Hc |- *. rewrite digits2_shift.
    replace (Z.pos (digits2_pos mx) + 52 + (ex + -52))
      with (Z.pos (digits2_pos mx) + ex) by lia.
    rewrite Hc. lia.
  - unfold key. cbn [shr_record_of_loc shr_m shr_r shr_s]. nia.
Qed.


Lemma SFltb_positive (x : spec_float) :
  SFltb (S754_zero false) x = true <-> positive_float x.
Proof.
  destruct x as [s|[|]| |[|] m e]; cbn; split; intros H;
    try discriminate; try contradiction; auto.
Qed.

Lemma SFleb_positive (x y : spec_float) :
  positive_float x -> SFleb x y = true -> positive_float y.
Proof.
  destruct x as [s|[|]| |[|] m e]; cbn; try contradiction; intros _;
    destruct y as [s'|[|]| |[|] m' e']; cbn; try discriminate; auto.
Qed.

Lemma SFleb_refl (x : spec_float) : x <> S754_nan -> SFleb x x = true.
Proof.
  intros Hx. destruct x as [s|s| |s m e]; try contradiction; unfold SFleb; cbn.
  - reflexivity.
  - now destruct s.
  - rewrite Z.compare_refl, Pos.compare_cont_refl. now destruct s.
Qed.

(** On floats: a positive [x] times a factor [c] in [1, 2) is positive
    and not below [x]. *)
Lemma float_mul_raise (x c : float) (mc : positive) :
  Prim2SF c = S754_finite false mc (-52) ->
  (4503599627370496 <= mc)%positive ->
  PrimFloat.ltb 0 x = true ->
  PrimFloat.leb x (x * c) = true /\ PrimFloat.ltb 0 (x * c) = true.
Proof.
  intros Hc Hmc. rewrite !FloatAxioms.ltb_spec, FloatAxioms.leb_spec, FloatAxioms.mul_spec, Hc.
  change (Prim2SF 0) with (S754_zero false).
  rewrite !SFltb_positive. intros Hx.
  assert (Hle : SFleb (Prim2SF x)
                  (SF64mul (Prim2SF x) (S754_finite false mc (-52))) = true).
  { pose proof (Prim2SF_valid x) as Hv.
    destruct (Prim2SF x) as [s|[|]| |[|] m e]; try contradiction.
    - reflexivity.
    - now apply SFmul_raise. }
  split; [exact Hle|]. exact (SFleb_positive _ _ Hx Hle).
Qed.

(** *** Shifting before rounding *)

Lemma iter_pos_iter {A : Type} (f : A -> A) (p : positive) (x : A) :
  SpecFloat.iter_pos f p x = Pos.iter f x p.
Proof.
  revert x. induction p as [p IH|p IH|]; intros x; cbn [SpecFloat.iter_pos Pos.iter].
  - rewrite !IH. rewrite !Pos.iter_swap. reflexivity.
  - rewrite !IH. reflexivity.
  - reflexivity.
Qed.

Lemma shr_add (R : shr_record) (e k t : Z) :
  0 <= k -> 0 <= t ->
  shr (fst (shr R e k)) (snd (shr R e k)) t = shr R e (k + t).
Proof.
  intros Hk Ht. destruct k as [|k|k]; try lia; cbn [shr fst snd].
  - reflexivity.
  - destruct t as [|t|t]; try lia; cbn [shr Z.add].
    + reflexivity.
    + rewrite !iter_pos_iter. rewrite (Pos.add_comm k t), Pos.iter_add.
      f_equal. lia.
Qed.

Lemma shr_record_eta (R : shr_record) :
  shr_record_of_loc (shr_m R) (loc_of_shr_record R) = R.
Proof. destruct R as [m [|] [|]]; reflexivity. Qed.

(** Shifting [k] places by hand, fewer than the rounding shifts anyway,
    does not change the result. *)
Lemma binary_round_aux_preshift (s : bool) (R0 : shr_record) (e0 k : Z) :
  0 <= shr_m R0 -> 0 <= k ->
  0 < shr_m (fst (shr R0 e0 k)) ->
  e0 + k <= fexp64 (Zdigits2 (shr_m (fst (shr R0 e0 k))) + (e0 + k)) ->
  binary_round_aux prec emax s (shr_m R0) e0 (loc_of_shr_record R0) =
  binary_round_aux prec emax s (shr_m (fst (shr R0 e0 k))) (e0 + k)
    (loc_of_shr_record (fst (shr R0 e0 k))).
Proof.
  intros Hm Hk Hpos Hfine.
  destruct (shr_m_shr R0 e0 k Hm) as [HmR HeR].
  rewrite Z.max_r in HmR, HeR by exact Hk.
  set (R := fst (shr R0 e0 k)) in *.
  assert (HD : Zdigits2 (shr_m R) = Zdigits2 (shr_m R0) - k).
  { rewrite HmR in Hpos |- *. rewrite Zdigits2_div by lia.
    destruct (Z_lt_le_dec (Zdigits2 (shr_m R0) - k) 1) as [Hsmall|]; [|lia].
    exfalso. rewrite Z.div_small in Hpos; [lia|]. split; [lia|].
    apply Z.lt_le_trans with (2 ^ Zdigits2 (shr_m R0)).
    - now apply Zdigits2_upper.
    - apply Z.pow_le_mono_r; lia. }
  unfold binary_round_aux, shr_fexp. rewrite !shr_record_eta.
  set (t := fexp64 (Zdigits2 (shr_m R) + (e0 + k)) - (e0 + k)) in *.
  assert (Ht : 0 <= t) by (subst t; lia).
  replace (fexp64 (Zdigits2 (shr_m R0) + e0) - e0) with (k + t).
  - rewrite <- (shr_add R0 e0 k t Hk Ht). fold R. rewrite HeR. reflexivity.
  - subst t. rewrite HD. replace (Zdigits2 (shr_m R0) - k + (e0 + k))
      with (Zdigits2 (shr_m R0) + e0) by lia. lia.
Qed.

(** *** Quotients by 100 *)


Lemma hundredth_m (N : Z) : shr_m (hundredth N) = N / 100.
Proof. apply shr_m_of_loc. Qed.

Lemma hundredth_key (N : Z) :
  key (hundredth N) =
  4 * (N / 100) +
  (if N mod 100 =? 0 then 0
   else match 2 * (N mod 100) ?= 100 with Lt => 1 | Eq => 2 | Gt => 3 end).
Proof.
  unfold hundredth, new_location. change (Z.even 100) with true. cbv iota.
  unfold new_location_even, key.
  destruct (N mod 100 =? 0); [cbn; lia|].
  destruct (2 * (N mod 100) ?= 100); cbn [shr_record_of_loc shr_m shr_r shr_s]; lia.
Qed.

Lemma hundredth_mono (N1 N2 : Z) :
  0 <= N1 <= N2 -> key (hundredth N1) <= key (hundredth N2).
Proof.
  intros [H1 H2]. rewrite !hundredth_key.
  pose proof (Z.div_mod N1 100 ltac:(lia)) as E1.
  pose proof (Z.div_mod N2 100 ltac:(lia)) as E2.
  pose proof (Z.mod_pos_bound N1 100 ltac:(lia)) as B1.
  pose proof (Z.mod_pos_bound N2 100 ltac:(lia)) as B2.
  pose proof (Z.div_le_mono N1 N2 100 ltac:(lia) H2) as Hq.
  destruct (Z.eqb_spec (N1 mod 100) 0), (Z.eqb_spec (N2 mod 100) 0);
    destruct (Z.compare_spec (2 * (N1 mod 100)) 100);
    destruct (Z.compare_spec (2 * (N2 mod 100)) 100); lia.
Qed.

Lemma hundredth_half (N : Z) : 0 <= N -> shr_1 (hundredth (2 * N)) = hundredth N.
Proof.
  intros HN. unfold hundredth, new_location. change (Z.even 100) with true.
  cbv iota. unfold new_location_even.
  pose proof (Z.div_mod N 100 ltac:(lia)) as E.
  pose proof (Z.mod_pos_bound N 100 ltac:(lia)) as B.
  assert (Hq : 0 <= N / 100) by (apply Z.div_pos; lia).
  set (q := N / 100) in *. set (r := N mod 100) in *.
  destruct (Z_lt_le_dec (2 * r) 100) as [Hlt|Hge].
  - assert (Hq2 : 2 * N / 100 = 2 * q) by (symmetry; apply Z.div_unique with (2 * r); lia).
    assert (Hr2 : (2 * N) mod 100 = 2 * r) by (symmetry; apply Z.mod_unique with (2 * q); lia).
    rewrite Hq2, Hr2.
    destruct (Z.eqb_spec r 0) as [Hr0|Hr0].
    + rewrite Hr0. cbn [Z.mul Z.eqb shr_record_of_loc].
      destruct q as [|p|p]; try lia; reflexivity.
    + destruct (Z.eqb_spec (2 * r) 0); [lia|].
      destruct (Z.compare_spec (2 * r) 100); try lia.
      assert (Hloc : forall c, shr_1 (shr_record_of_loc (2 * q) (loc_Inexact c))
                               = shr_record_of_loc q (loc_Inexact Lt)).
      { intros c. destruct q as [|p|p]; try lia; destruct c; reflexivity. }
      apply Hloc.
  - assert (Hq2 : 2 * N / 100 = 2 * q + 1)
      by (symmetry; apply Z.div_unique with (2 * r - 100); lia).
    assert (Hr2 : (2 * N) mod 100 = 2 * r - 100)
      by (symmetry; apply Z.mod_unique with (2 * q + 1); lia).
    rewrite Hq2, Hr2.
    destruct (Z.eqb_spec r 0); [lia|].
    destruct (Z.compare_spec (2 * r) 100) as [Heq|Hlt|Hgt]; try lia.
    + replace (2 * r - 100) with 0 by lia. cbn [Z.eqb shr_record_of_loc].
      destruct q as [|p|p]; try lia; reflexivity.
    + destruct (Z.eqb_spec (2 * r - 100) 0); [lia|].
      assert (Hloc : forall c, shr_1 (shr_record_of_loc (2 * q + 1) (loc_Inexact c))
                               = shr_record_of_loc q (loc_Inexact Gt)).
      { intros c. destruct q as [|p|p]; try lia; destruct c; reflexivity. }
      apply Hloc.
Qed.

Lemma hundredth_shift (n : nat) (N : Z) :
  0 <= N -> Nat.iter n shr_1 (hundredth (N * 2 ^ Z.of_nat n)) = hundredth N.
Proof.
  revert N. induction n as [|n IH]; intros N HN.
  - change (Z.of_nat 0) with 0. now rewrite Z.pow_0_r, Z.mul_1_r.
  - rewrite Nat.iter_succ.
    replace (N * 2 ^ Z.of_nat (S n)) with (2 * N * 2 ^ Z.of_nat n).
    + rewrite IH by lia. now apply hundredth_half.
    + rewrite Nat2Z.inj_succ, Z.pow_succ_r by lia. lia.
Qed.

Lemma hundredth_shr (N e k : Z) :
  0 <= N -> 0 <= k -> fst (shr (hundredth (N * 2 ^ k)) e k) = hundredth N.
Proof.
  intros HN Hk. destruct k as [|p|p]; try lia; cbn [shr fst].
  - now rewrite Z.pow_0_r, Z.mul_1_r.
  - rewrite iter_pos_iter, Pos2Nat.inj_iter.
    rewrite <- (positive_nat_Z p) at 1. now apply hundredth_shift.
Qed.


Lemma cents_shift_nonneg (a : positive) : 0 <= cents_shift a.
Proof. unfold cents_shift. lia. Qed.

Lemma SFdiv_100 (a : positive) :
  SF64div (S754_finite false a 0) (S754_finite false 100 0) =
  binary_round_aux prec emax false
    ((Zpos a * 2 ^ cents_shift a) / 100) (- cents_shift a)
    (new_location 100 ((Zpos a * 2 ^ cents_shift a) mod 100)).
Proof.
  unfold SF64div, SFdiv, SFdiv_core_binary.
  change (Zdigits2 100) with 7.
  replace (Zdigits2 (Z.pos a) + 0 - (7 + 0)) with (Zdigits2 (Zpos a) - 7) by lia.
  change (0 - 0) with 0.
  pose proof (cents_shift_nonneg a) as Hs. unfold cents_shift in *.
  set (e' := Z.min (fexp64 (Zdigits2 (Z.pos a) - 7)) 0) in *.
  replace (0 - e') with (- e') by lia.
  assert (Hm' : match - e' with
                | 0 => Z.pos a
                | Z.pos _ => Z.shiftl (Z.pos a) (- e')
                | Z.neg _ => 0
                end = Zpos a * 2 ^ (- e')).
  { destruct (- e') as [|p|p] eqn:E; try lia.
    rewrite Z.shiftl_mul_pow2 by lia. reflexivity. }
  rewrite Hm'. set (N := Zpos a * 2 ^ (- e')).
  unfold Z.div, Z.modulo. destruct (Z.div_eucl N 100) as [q r].
  replace (- - e') with e' by lia. reflexivity.
Qed.

Lemma loc_of_loc (m : Z) (l : location) :
  loc_of_shr_record (shr_record_of_loc m l) = l.
Proof. destruct l as [|[]]; reflexivity. Qed.

(** The shifted numerator is at least [2^59], so its quotient by 100 has
    53 digits or more and the rounding has nothing to add to it. *)
Lemma cents_fine (a : positive) :
  100 <= Zpos a * 2 ^ cents_shift a /\
  - cents_shift a
  <= fexp64 (Zdigits2 (Zpos a * 2 ^ cents_shift a / 100) + - cents_shift a).
Proof.
  pose proof (Zdigits2_bounds (Zpos a) ltac:(lia)) as [Hlow _].
  pose proof (cents_shift_nonneg a) as Hs.
  set (d := Zdigits2 (Zpos a)) in *.
  assert (Hd : 1 <= d).
  { subst d. cbn [Zdigits2]. lia. }
  assert (HN : 2 ^ 59 <= Zpos a * 2 ^ cents_shift a).
  { unfold cents_shift in *. fold d in Hs |- *. rewrite fexp64_eq in *.
    destruct (Z_le_gt_dec d 60) as [Hle|Hgt].
    - replace (- Z.min (Z.max (d - 7 - 53) (-1074)) 0) with (60 - d) by lia.
      replace 59 with (d - 1 + (60 - d)) by lia. rewrite Z.pow_add_r by lia.
      apply Z.mul_le_mono_nonneg_r; [apply Z.pow_nonneg; lia | exact Hlow].
    - replace (- Z.min (Z.max (d - 7 - 53) (-1074)) 0) with 0 by lia.
      rewrite Z.pow_0_r, Z.mul_1_r.
      apply Z.le_trans with (2 ^ (d - 1)); [|exact Hlow].
      apply Z.pow_le_mono_r; lia. }
  set (N := Zpos a * 2 ^ cents_shift a) in *.
  change (2 ^ 59) with 576460752303423488 in HN.
  split; [lia|].
  assert (Hq : 2 ^ 52 <= N / 100).
  { change (2 ^ 52) with 4503599627370496. apply Z.div_le_lower_bound; lia. }
  assert (HD : 53 <= Zdigits2 (N / 100)).
  { pose proof (Zdigits2_mono (2 ^ 52) (N / 100) ltac:(lia)) as H.
    rewrite Zdigits2_pow2 in H by lia. lia. }
  unfold cents_shift in *. fold d in Hs |- *. rewrite !fexp64_eq in *. lia.
Qed.

Lemma cents_shift_mono (a b : positive) :
  (a <= b)%positive -> cents_shift b <= cents_shift a.
Proof.
  intros Hab. unfold cents_shift. rewrite !fexp64_eq.
  pose proof (Zdigits2_mono (Zpos a) (Zpos b) ltac:(lia)). lia.
Qed.

(** The double nearest to [a / 100] grows with [a]. *)
Lemma SFdiv_100_mono (a b : positive) :
  (a <= b)%positive ->
  SFleb (SF64div (S754_finite false a 0) (S754_finite false 100 0))
        (SF64div (S754_finite false b 0) (S754_finite false 100 0)) = true.
Proof.
  intros Hab. rewrite !SFdiv_100.
  pose proof (cents_shift_mono a b Hab) as Hs.
  pose proof (cents_shift_nonneg a) as Hsa.
  pose proof (cents_shift_nonneg b) as Hsb.
  destruct (cents_fine a) as [HNa Hfa]. destruct (cents_fine b) as [HNb Hfb].
  set (sa := cents_shift a) in *. set (sb := cents_shift b) in *.
  set (Nb := Zpos b * 2 ^ sb) in *.
  assert (Hsplit : Zpos b * 2 ^ sa = Nb * 2 ^ (sa - sb)).
  { subst Nb. rewrite <- Z.mul_assoc, <- Z.pow_add_r by lia. do 2 f_equal. lia. }
  assert (Hqb : 0 < Nb / 100).
  { apply Z.div_str_pos. lia. }
  pose proof (hundredth_shr Nb (- sa) (sa - sb) ltac:(lia) ltac:(lia)) as Hshr.
  rewrite <- Hsplit in Hshr.
  pose proof (binary_round_aux_preshift false
                (hundredth (Zpos b * 2 ^ sa)) (- sa) (sa - sb)) as Hpre.
  rewrite Hshr in Hpre. rewrite !hundredth_m in Hpre.
  unfold hundredth in Hpre. rewrite !loc_of_loc in Hpre.
  replace (- sa + (sa - sb)) with (- sb) in Hpre by lia.
  rewrite <- Hpre.
  - apply binary_round_aux_mono.
    + apply Z.div_pos; lia.
    + exact Hfa.
    + apply hundredth_mono. split; [lia|].
      apply Z.mul_le_mono_nonneg_r; [apply Z.pow_nonneg; lia | lia].
  - apply Z.div_pos; [|lia]. apply Z.mul_nonneg_nonneg; [lia|].
    apply Z.pow_nonneg; lia.
  - lia.
  - exact Hqb.
  - exact Hfb.
Qed.

(** What [binary_round_aux] returns on a fine mantissa is a valid
    float. *)
Lemma binary_round_aux_valid (s : bool) (m e : Z) (l : location) :
  0 <= m -> e <= fexp64 (Zdigits2 m + e) ->
  valid_binary (binary_round_aux prec emax s m e l) = true.
Proof.
  intros Hm Hfine.
  destruct (binary_round_aux_rounded s m e l Hm Hfine)
    as [[_ ->]|(p & e3 & _ & _ & Hc & ->)]; [reflexivity|].
  destruct (Z.leb_spec e3 (emax - prec)) as [Hle|Hgt]; [|reflexivity].
  cbn [valid_binary]. unfold bounded. rewrite Hc.
  apply Z.leb_le in Hle. now rewrite Hle.
Qed.

Lemma SFdiv_100_valid (a : positive) :
  valid_binary (SF64div (S754_finite false a 0) (S754_finite false 100 0)) = true.
Proof.
  rewrite SFdiv_100. destruct (cents_fine a) as [HN Hf].
  apply binary_round_aux_valid; [|exact Hf].
  apply Z.div_pos; lia.
Qed.

Lemma SFdiv_100_positive (a : positive) :
  SFleb (S754_zero false)
    (SF64div (S754_finite false a 0) (S754_finite false 100 0)) = true.
Proof.
  rewrite SFdiv_100. destruct (cents_fine a) as [HN Hf].
  assert (Hq : 0 <= Zpos a * 2 ^ cents_shift a / 100) by (apply Z.div_pos; lia).
  destruct (binary_round_aux_rounded false _ _
              (new_location 100 ((Zpos a * 2 ^ cents_shift a) mod 100)) Hq Hf)
    as [[_ ->]|(p & e3 & _ & _ & _ & ->)]; [reflexivity|].
  destruct (e3 <=? emax - prec); reflexivity.
Qed.

(** A product by the double 1.0 is exact. *)
Lemma float_mul_one (x : float) : mul x (of_int 1) = x.
Proof.
  apply Prim2SF_inj. cbn [mul float_number]. rewrite FloatAxioms.mul_spec.
  change (Prim2SF (of_int 1)) with (S754_finite false 4503599627370496 (-52)).
  apply SFmul_one, Prim2SF_valid.
Qed.

(** A double equal to 0.0 is one of the two zeros, and added to 1.0
    leaves it as it is. *)
Lemma float_one_plus_zero (x : float) :
  PrimFloat.eqb x (of_int 0) = true -> add (of_int 1) x = of_int 1.
Proof.
  rewrite FloatAxioms.eqb_spec. intros Hx. rewrite <- (SF2Prim_Prim2SF x).
  change (Prim2SF (of_int 0)) with (S754_zero false) in Hx.
  destruct (Prim2SF x) as [s|s| |s m e]; try discriminate.
  - destruct s; reflexivity.
  - destruct s; discriminate.
  - destruct s; discriminate.
Qed.

Lemma SFeqb_refl (x : spec_float) : x <> S754_nan -> SFeqb x x = true.
Proof.
  intros Hx. destruct x as [s|s| |s m e]; try contradiction; unfold SFeqb; cbn.
  - reflexivity.
  - now destruct s.
  - rewrite Z.compare_refl, Pos.compare_cont_refl. now destruct s.
Qed.

(** Added to [0 * c], a number [t] comes back equal to itself. *)
Lemma float_fresh_balance (c t : float) :
  is_finite c = true -> is_nan t = false ->
  PrimFloat.eqb (add (mul (of_int 0) c) t) t = true.
Proof.
  unfold is_finite, is_nan, is_infinity. cbn [add mul float_number].
  rewrite !FloatAxioms.eqb_spec, FloatAxioms.abs_spec, FloatAxioms.add_spec, FloatAxioms.mul_spec.
  change (Prim2SF (of_int 0)) with (S754_zero false).
  change (Prim2SF infinity) with (S754_infinity false).
  intros Hc Ht.
  destruct (Prim2SF c) as [sc|sc| |sc mc ec]; cbn in Hc; try discriminate Hc;
    destruct (Prim2SF t) as [s|s| |s m e] eqn:Et; cbn in Ht;
    try discriminate Ht; cbn [SF64add SF64mul SFmul SFadd xorb];
    try (destruct sc, s; reflexivity);
    try (apply SFeqb_refl; discriminate).
  all: destruct sc; discriminate Hc.
Qed.

(** *** Doubles and the numbers they stand for *)

Lemma SFleb_finite_inv (p1 p2 : positive) (e1 e2 : Z) :
  SFleb (S754_finite false p1 e1) (S754_finite false p2 e2) = true ->
  e1 < e2 \/ (e1 = e2 /\ (p1 <= p2)%positive).
Proof.
  unfold SFleb. cbn [SFcompare].
  destruct (Z.compare_spec e1 e2) as [->|Hlt|Hgt]; intros H; try discriminate.
  - right. split; [reflexivity|].
    change (Pos.compare_cont Eq p1 p2) with (p1 ?= p2)%positive in H.
    unfold Pos.le. destruct (p1 ?= p2)%positive; discriminate.
  - now left.
Qed.

Lemma canonical_value_le (p1 p2 : positive) (e1 e2 e0 : Z) :
  canonical_mantissa prec emax p1 e1 = true ->
  canonical_mantissa prec emax p2 e2 = true ->
  e0 <= e1 -> e0 <= e2 ->
  e1 < e2 \/ (e1 = e2 /\ (p1 <= p2)%positive) ->
  Zpos p1 * 2 ^ (e1 - e0) <= Zpos p2 * 2 ^ (e2 - e0).
Proof.
  intros H1 H2 He1 He2 [Hlt|[-> Hle]].
  - apply canonical_digits in H1, H2. rewrite fexp64_eq in H1, H2.
    pose proof (Zdigits2_bounds (Zpos p1) ltac:(lia)) as [_ Hu1].
    pose proof (Zdigits2_bounds (Zpos p2) ltac:(lia)) as [Hl2 _].
    assert (HD2 : Zdigits2 (Zpos p2) = 53) by lia.
    assert (HD1 : Zdigits2 (Zpos p1) <= 53) by lia.
    rewrite HD2 in Hl2. change (2 ^ (53 - 1)) with (2 ^ 52) in Hl2.
    assert (Hu1' : Zpos p1 <= 2 ^ 53).
    { apply Z.le_trans with (2 ^ Zdigits2 (Zpos p1)); [lia|].
      apply Z.pow_le_mono_r; lia. }
    apply Z.le_trans with (2 ^ 53 * 2 ^ (e1 - e0)).
    + apply Z.mul_le_mono_nonneg_r; [apply Z.pow_nonneg; lia | exact Hu1'].
    + apply Z.le_trans with (2 ^ 52 * 2 ^ (e2 - e0)).
      * rewrite <- !Z.pow_add_r by lia. apply Z.pow_le_mono_r; lia.
      * apply Z.mul_le_mono_nonneg_r; [apply Z.pow_nonneg; lia | exact Hl2].
  - apply Z.mul_le_mono_nonneg_r; [apply Z.pow_nonneg; lia | lia].
Qed.

Lemma Q_of_finite_scaled (m : positive) (e e0 : Z) :
  e0 <= e -> e0 <= 0 ->
  (Q_of_finite m e == (Zpos m * 2 ^ (e - e0)) # Z.to_pos (2 ^ (- e0)))%Q.
Proof.
  intros He H0. unfold Q_of_finite, Qeq.
  assert (Hp0 : 0 < 2 ^ (- e0)) by (apply Z.pow_pos_nonneg; lia).
  destruct (Z.leb_spec 0 e) as [Hpos|Hneg]; cbn [Qnum Qden].
  - rewrite Z2Pos.id by exact Hp0.
    replace (e - e0) with (e + - e0) by lia. rewrite Z.pow_add_r by lia. lia.
  - assert (Hp : 0 < 2 ^ (- e)) by (apply Z.pow_pos_nonneg; lia).
    rewrite !Z2Pos.id by assumption.
    replace (- e0) with (e - e0 + - e) at 1 by lia. rewrite Z.pow_add_r by lia. lia.
Qed.

(** Doubles in order stand for numbers in order. *)
Lemma Q_of_finite_le (mx my : positive) (ex ey : Z) :
  valid_binary (S754_finite false mx ex) = true ->
  valid_binary (S754_finite false my ey) = true ->
  SFleb (S754_finite false mx ex) (S754_finite false my ey) = true ->
  (Q_of_finite mx ex <= Q_of_finite my ey)%Q.
Proof.
  cbn [valid_binary]. unfold bounded. intros Hx Hy Hle.
  apply andb_prop in Hx, Hy. destruct Hx as [Hx _], Hy as [Hy _].
  apply SFleb_finite_inv in Hle.
  set (e0 := Z.min (Z.min ex ey) 0).
  pose proof (canonical_value_le mx my ex ey e0 Hx Hy ltac:(lia) ltac:(lia) Hle) as Hv.
  rewrite (Q_of_finite_scaled mx ex e0), (Q_of_finite_scaled my ey e0) by lia.
  unfold Qle. cbn [Qnum Qden].
  apply Z.mul_le_mono_nonneg_r; [lia | exact Hv].
Qed.

Local Open Scope Q_scope.

Lemma round_half_even_comp : Proper (Qeq ==> eq) round_half_even.
Proof.
  intros q q' Hq. unfold round_half_even.
  rewrite (Qfloor_comp _ _ Hq).
  replace (q - inject_Z (Qfloor q') ?= 1 # 2)
    with (q' - inject_Z (Qfloor q') ?= 1 # 2); [reflexivity|].
  apply Qcompare_comp; [now rewrite Hq | reflexivity].
Qed.

Lemma inject_Z_succ (z : Z) : inject_Z (z + 1) == inject_Z z + 1.
Proof. now rewrite inject_Z_plus. Qed.

Lemma round_half_even_near (q : Q) :
  inject_Z (round_half_even q) - (1 # 2) <= q <= inject_Z (round_half_even q) + (1 # 2).
Proof.
  unfold round_half_even.
  pose proof (Qfloor_le q) as Hlo. pose proof (Qlt_floor q) as Hhi.
  rewrite inject_Z_succ in Hhi.
  destruct (q - inject_Z (Qfloor q) ?= 1 # 2) eqn:E.
  - apply Qeq_alt in E.
    destruct (Z.even (Qfloor q)); rewrite ?inject_Z_succ; lra.
  - apply Qlt_alt in E. lra.
  - apply Qgt_alt in E. rewrite inject_Z_succ. lra.
Qed.

Lemma round_half_even_mono (q q' : Q) :
  q <= q' -> (round_half_even q <= round_half_even q')%Z.
Proof.
  intros Hle. destruct (Qlt_le_dec q q') as [Hlt|Hge].
  - pose proof (round_half_even_near q) as Hq.
    pose proof (round_half_even_near q') as Hq'.
    destruct (Z_le_gt_dec (round_half_even q) (round_half_even q')) as [|Hgt];
      [assumption|].
    assert (Hz : inject_Z (round_half_even q' + 1) <= inject_Z (round_half_even q))
      by (rewrite <- Zle_Qle; lia).
    rewrite inject_Z_succ in Hz. lra.
  - assert (E : round_half_even q = round_half_even q')
      by (apply round_half_even_comp; now apply Qle_antisym).
    lia.
Qed.

Local Open Scope Z_scope.

(** The double [round(x, 2)] returns for a positive finite [x]. *)
Lemma Prim2SF_round2 (x : float) (m : positive) (e : Z) :
  Prim2SF x = S754_finite false m e ->
  Prim2SF (float_round2 x) =
  match round_half_even (Q_of_finite m e * 100) with
  | Zpos n => SF64div (S754_finite false n 0) (S754_finite false 100 0)
  | _ => S754_zero false
  end.
Proof.
  intros Hx. unfold float_round2. rewrite Hx.
  destruct (round_half_even (Q_of_finite m e * 100)) as [|n|n].
  - reflexivity.
  - unfold nearest_ratio. apply Prim2SF_SF2Prim. apply SFdiv_100_valid.
  - reflexivity.
Qed.

Lemma SFleb_infinity (z : spec_float) :
  SFleb (S754_zero false) z = true -> SFleb z (S754_infinity false) = true.
Proof. destruct z as [s|[|]| |[|] m e]; cbn; intros H; try discriminate; reflexivity. Qed.

(** [round(x, 2)] keeps the order of positive doubles. *)
Lemma float_round2_mono (x y : float) :
  PrimFloat.ltb 0 x = true -> PrimFloat.leb x y = true ->
  PrimFloat.leb (float_round2 x) (float_round2 y) = true.
Proof.
  rewrite FloatAxioms.ltb_spec, !FloatAxioms.leb_spec. change (Prim2SF 0) with (S754_zero false).
  rewrite SFltb_positive. intros Hx Hle.
  pose proof (SFleb_positive _ _ Hx Hle) as Hy.
  pose proof (Prim2SF_valid x) as Hvx. pose proof (Prim2SF_valid y) as Hvy.
  destruct (Prim2SF x) as [s|[|]| |[|] mx ex] eqn:Ex; try contradiction;
    destruct (Prim2SF y) as [s'|[|]| |[|] my ey] eqn:Ey; try contradiction;
    try discriminate Hle.
  - unfold float_round2. rewrite Ex, Ey. cbv iota. now rewrite Ex, Ey.
  - rewrite (Prim2SF_round2 x mx ex Ex).
    replace (Prim2SF (float_round2 y)) with (S754_infinity false)
      by (unfold float_round2; rewrite Ey; cbv iota; now rewrite Ey).
    apply SFleb_infinity.
    destruct (round_half_even _); [reflexivity | apply SFdiv_100_positive | reflexivity].
  - rewrite (Prim2SF_round2 x mx ex Ex), (Prim2SF_round2 y my ey Ey).
    pose proof (Q_of_finite_le mx my ex ey Hvx Hvy Hle) as Hq.
    assert (Hn : round_half_even (Q_of_finite mx ex * 100)
                 <= round_half_even (Q_of_finite my ey * 100)).
    { apply round_half_even_mono. apply Qmult_le_compat_r; [exact Hq | discriminate]. }
    destruct (round_half_even (Q_of_finite mx ex * 100)) as [|a|a];
      destruct (round_half_even (Q_of_finite my ey * 100)) as [|b|b];
      try lia; try reflexivity; try apply SFdiv_100_positive.
    apply SFdiv_100_mono. lia.
Qed.

(** The order of positive doubles is transitive. *)
Lemma SFleb_trans (x y z : spec_float) :
  positive_float x -> SFleb x y = true -> SFleb y z = true -> SFleb x z = true.
Proof.
  intros Hx Hxy Hyz. pose proof (SFleb_positive _ _ Hx Hxy) as Hy.
  pose proof (SFleb_positive _ _ Hy Hyz) as Hz.
  destruct x as [s|[|]| |[|] mx ex]; try contradiction;
    destruct y as [s'|[|]| |[|] my ey]; try contradiction; try discriminate Hxy;
    destruct z as [s''|[|]| |[|] mz ez]; try contradiction; try discriminate Hyz;
    try reflexivity.
  apply SFleb_finite_inv in Hxy, Hyz. apply SFleb_finite.
  destruct Hxy as [H1|[-> H1]], Hyz as [H2|[-> H2]]; try (left; lia).
  right. split; [reflexivity|]. lia.
Qed.


Lemma float_leb_trans (x y z : float) :
  PrimFloat.ltb (of_int 0) x = true ->
  PrimFloat.leb x y = true -> PrimFloat.leb y z = true ->
  PrimFloat.leb x z = true.
Proof.
  rewrite FloatAxioms.ltb_spec, !FloatAxioms.leb_spec.
  change (Prim2SF (of_int 0)) with (S754_zero false).
  rewrite SFltb_positive. apply SFleb_trans.
Qed.

(** ** The salary and the invested balance on doubles *)

Section Binary64.
Variable params : Params.t float.
Local Abbreviation rate := (Params.investment_rate params).
Local Abbreviation raise := (add (of_int 1) (growth_rate params)).

(** Every rate the lookup can give lies between 0.02 and 0.06. *)
Lemma growth_rate_range :
  PrimFloat.leb (literal 2 2) (growth_rate params) = true /\
  PrimFloat.leb (growth_rate params) (literal 6 2) = true.
Proof.
  unfold growth_rate, dict_get. cbn [INDUSTRY_GROWTH dict_find].
  repeat match goal with
         | |- context [String.eqb ?a ?b] => destruct (String.eqb a b)
         end; split; vm_compute; reflexivity.
Qed.

(** Whatever the industry, [1 + rate] is a double in [1, 2). *)
Lemma raise_shape :
  exists mc : positive,
    Prim2SF raise = S754_finite false mc (-52) /\
    (4503599627370496 <= mc)%positive.
Proof.
  unfold growth_rate, dict_get. cbn [INDUSTRY_GROWTH dict_find].
  repeat match goal with
         | |- context [String.eqb ?a ?b] => destruct (String.eqb a b)
         end;
    eexists; (split; [lazy; reflexivity | lazy; discriminate]).
Qed.

(** A positive salary stays positive and never decreases under the
    yearly raise. *)
Lemma grown_raise (n : nat) :
  PrimFloat.ltb (of_int 0) (Params.starting_salary params) = true ->
  PrimFloat.ltb (of_int 0) (grown params n) = true /\
  PrimFloat.leb (grown params n) (grown params (S n)) = true.
Proof.
  intros Hs. destruct raise_shape as (mc & Hc & Hmc).
  assert (Hpos : PrimFloat.ltb (of_int 0) (grown params n) = true).
  { induction n as [|n IH]; [exact Hs|].
    exact (proj2 (float_mul_raise _ _ mc Hc Hmc IH)). }
  split; [exact Hpos|].
  exact (proj1 (float_mul_raise _ _ mc Hc Hmc Hpos)).
Qed.

Lemma grown_from_start (n : nat) :
  PrimFloat.ltb (of_int 0) (Params.starting_salary params) = true ->
  PrimFloat.leb (Params.starting_salary params) (grown params n) = true.
Proof.
  intros Hs. induction n as [|n IH].
  - rewrite FloatAxioms.leb_spec. apply SFleb_refl.
    rewrite FloatAxioms.ltb_spec in Hs.
    change (Prim2SF (of_int 0)) with (S754_zero false) in Hs.
    apply SFltb_positive in Hs. unfold grown. cbn [Nat.iter nat_rect].
    intros E. rewrite E in Hs. exact Hs.
  - apply (float_leb_trans _ (grown params n)); [exact Hs | exact IH|].
    exact (proj2 (grown_raise n Hs)).
Qed.

(** With a return of 0.0 the balance is the sum of the contributions,
    added one after the other to 0. *)
Lemma invested_is_contributions (n : nat) (st : Locals.t float) :
  PrimFloat.eqb rate (of_int 0) = true ->
  run_loop params (Z.of_nat n) = Ok st ->
  Locals.invested st = contributions params n.
Proof.
  intros Hrate. revert st. induction n as [|n IH]; intros st Hrun.
  - rewrite run_loop_nonpos in Hrun by lia. injection Hrun as <-. reflexivity.
  - destruct (run_loop_step _ _ _ Hrun) as (a & st0 & Hage & Hrun0 & ->).
    cbn [contributions]. unfold to_invest_at.
    rewrite (frame_at_succ _ _ _ _ Hage Hrun0).
    cbn [carry Locals.invested figures Frame.invested Frame.to_invest].
    rewrite (float_one_plus_zero _ Hrate), float_mul_one, (IH _ Hrun0).
    reflexivity.
Qed.

(** C5.  The raise of line 36 comes first in every year: the salary the
    loop holds after [n] years is the starting salary multiplied [n]
    times in a row by [1 + rate], each product the double the
    multiplication returns, [rate] being the table's rate for the
    industry or 0.03; the salary reported for year [n] is that salary
    rounded to two digits, so the first row reports
    [round(starting_salary * (1 + rate), 2)]; and when the starting
    salary is positive no row reports less than the rounded starting
    salary. *)
Theorem salary_growth_compounds (r : list (Snapshot.t float)) :
  calculate_projection params = Ok r ->
  growth_rate params =
  match dict_find (@INDUSTRY_GROWTH float _) (Params.industry params) with
  | Some v => v
  | None => literal 3 2
  end /\
  grown params 0 = Params.starting_salary params /\
  (forall n, grown params (S n) = mul (grown params n) raise) /\
  (forall n st, run_loop params (Z.of_nat n) = Ok st ->
     Locals.salary st = grown params n) /\
  (forall i row, nth_error r i = Some row ->
     Snapshot.Salary row = round2 (grown params (S i))) /\
  (forall row, nth_error r 0 = Some row ->
     Snapshot.Salary row = round2 (mul (Params.starting_salary params) raise)) /\
  (PrimFloat.ltb (of_int 0) (Params.starting_salary params) = true ->
   forall row, In row r ->
     PrimFloat.leb (round2 (Params.starting_salary params))
       (Snapshot.Salary row) = true).
Proof.
  intros Hr. split; [reflexivity|]. split; [reflexivity|].
  split; [reflexivity|]. split; [exact (salary_after params)|].
  split; [intros i row Hrow; exact (row_salary params r i row Hr Hrow)|].
  split; [intros row Hrow; exact (row_salary params r 0 row Hr Hrow)|].
  intros Hs row Hin. destruct (In_nth_error _ _ Hin) as [i Hrow].
  rewrite (row_salary params r i row Hr Hrow).
  apply float_round2_mono; [exact Hs|]. now apply grown_from_start.
Qed.


(** C9.  With a positive starting salary the reported salaries never
    decrease from one row to the next, and neither do the unrounded
    salaries they are rounded from; the rate of the raise is at least
    0.02 whatever the industry. *)
Theorem reported_salary_monotone (r : list (Snapshot.t float)) :
  PrimFloat.ltb (of_int 0) (Params.starting_salary params) = true ->
  calculate_projection params = Ok r ->
  PrimFloat.leb (literal 2 2) (growth_rate params) = true /\
  forall i row row',
    nth_error r i = Some row ->
    nth_error r (S i) = Some row' ->
    PrimFloat.leb (Snapshot.Salary row) (Snapshot.Salary row') = true /\
    PrimFloat.leb (grown params (S i)) (grown params (S (S i))) = true /\
    Snapshot.Salary row = round2 (grown params (S i)) /\
    Snapshot.Salary row' = round2 (grown params (S (S i))).
Proof.
  intros Hs Hr. split; [apply growth_rate_range|].
  intros i row row' Hrow Hrow'.
  pose proof (row_salary params r i row Hr Hrow) as E.
  pose proof (row_salary params r (S i) row' Hr Hrow') as E'.
  destruct (grown_raise (S i) Hs) as [Hpos Hle].
  split; [|split; [exact Hle | split; [exact E | exact E']]].
  rewrite E, E'. now apply float_round2_mono.
Qed.

End Binary64.

(** ** Runs on concrete inputs *)

Local Open Scope Z_scope.

(** The binary64 numbers behave as CPython's: [3 * 0.8] is not the double
    [2.4] but rounds to it, [round(2.675, 2)] is [2.67] because the double
    lies below the tie, the exact tie [0.125] goes to the even [0.12], and
    a negative number that rounds to zero keeps its sign. *)
Example float_numbers_as_cpython :
  PrimFloat.eqb (mul (of_int 3) (literal 8 1)) (literal 24 1) = false /\
  round2 (mul (of_int 3) (literal 8 1)) = literal 24 1 :> float /\
  round2 (literal 2675 3) = literal 267 2 :> float /\
  round2 (literal 125 3) = literal 12 2 :> float /\
  round2 (literal (-1) 3) = PrimFloat.neg_zero /\
  round2 PrimFloat.infinity = PrimFloat.infinity.
Proof. repeat split; vm_compute; reflexivity. Qed.

(** A run without ages, on exact numbers. *)
Lemma scenario_without_ages_raises_exact :
  Params.current_age (@scenario Q _ None None) = None /\
  1 <= Params.years (@scenario Q _ None None) /\
  calculate_projection (@scenario Q _ None None) = Raise TypeError.
Proof.
  split; [reflexivity|]. split; [cbn; lia|].
  apply projection_raises_without_current_age; [reflexivity | cbn; lia].
Defined.

(** C2.  On the scenario of the specification, entered without a marriage
    plan, the call raises [TypeError] and returns no row; the figures of
    the specification are those of year 1 once both ages are given and
    the marriage lies beyond the projection. *)
Theorem scenario_year_one :
  calculate_projection (@scenario float _ None None) = Raise TypeError /\
  row_at (@scenario float _ (Some 30) (Some 40)) 1 = Some (scenario_year_1 30) /\
  row_at (@scenario Q _ (Some 30) (Some 40)) 1 = Some (scenario_year_1 30).
Proof. repeat split; vm_compute; reflexivity. Qed.

Lemma newlyweds_length_and_years :
  (forall r, calculate_projection (@newlyweds float _) = Ok r ->
     Z.of_nat (List.length r) = 5 /\
     forall i row, nth_error r i = Some row ->
       Snapshot.Year row = Z.of_nat i + 1) /\
  (Params.current_age (@newlyweds float _) <> None ->
     exists r, calculate_projection (@newlyweds float _) = Ok r).
Proof.
  apply (projection_length_and_years (@newlyweds float _)). cbn. lia.
Defined.

(** The rent example of the specification: 12000 before the marriage at
    32, 9600 from then on. *)
Lemma newlyweds_rent :
  (exists r,
     calculate_projection (@newlyweds float _) = Ok r /\
     (forall i row, nth_error r i = Some row ->
        Snapshot.Rent row =
        if 32 <=? 30 + (Z.of_nat i + 1) - 1
        then round2 (mul (of_int 12000) (literal 8 1))
        else round2 (of_int 12000)) /\
     (forall i j row_i row_j,
        nth_error r i = Some row_i -> nth_error r j = Some row_j ->
        (i <= j)%nat ->
        Snapshot.Rent row_i <> round2 (of_int 12000) ->
        Snapshot.Rent row_j = round2 (mul (of_int 12000) (literal 8 1)))) /\
  map (@Snapshot.Age float) (rows_of newlyweds) = [30; 31; 32; 33; 34] /\
  map (@Snapshot.Rent float) (rows_of newlyweds) =
  [of_int 12000; of_int 12000; of_int 9600; of_int 9600; of_int 9600] /\
  map (@Snapshot.Rent Q) (rows_of newlyweds) =
  [literal 1200000 2; literal 1200000 2;
   literal 960000 2; literal 960000 2; literal 960000 2].
Proof.
  split.
  - apply (rent_by_year (@newlyweds float _) 30 32); [reflexivity | reflexivity | lia].
  - repeat split; vm_compute; reflexivity.
Defined.

Lemma odd_rent_reduced_every_year :
  exists r,
    calculate_projection (@odd_rent float _) = Ok r /\
    List.length r = 1%nat /\
    forall row, In row r ->
      Snapshot.Rent row = round2 (mul (literal 10001 2) (literal 8 1)).
Proof.
  apply (rent_reduced_every_year (@odd_rent float _) 30 30);
    [reflexivity | reflexivity | lia | lia].
Defined.

Lemma unknown_key_as_education :
  List.length (@INDUSTRY_GROWTH float _) = 8%nat /\
  growth_rate (with_industry (scenario (Some 30) (Some 40)) "unknown_key")
  = literal 3 2 /\
  calculate_projection (with_industry (scenario (Some 30) (Some 40)) "unknown_key") =
  calculate_projection (with_industry (scenario (Some 30) (Some 40)) "education").
Proof.
  apply (unknown_industry_as_default_rate (T := float));
    vm_compute; reflexivity.
Defined.

Lemma scenario_returns :
  calculate_projection (@scenario float _ (Some 30) (Some 40)) =
  Ok (rows_of (scenario (Some 30) (Some 40))).
Proof. vm_compute. reflexivity. Defined.

Lemma uneven_returns :
  calculate_projection (@uneven float _) = Ok (rows_of uneven).
Proof. vm_compute. reflexivity. Defined.

Lemma idle_returns :
  calculate_projection (@idle float _) = Ok (rows_of idle).
Proof. vm_compute. reflexivity. Defined.

(** The scenario of the specification: 84800, 89888 and 95281.28. *)
Lemma scenario_salary_growth :
  map (@Snapshot.Salary float) (rows_of (scenario (Some 30) (Some 40)))
  = [literal 8480000 2; literal 8988800 2; literal 9528128 2] /\
  growth_rate (@scenario float _ (Some 30) (Some 40)) =
  match dict_find (@INDUSTRY_GROWTH float _) "technology" with
  | Some v => v
  | None => literal 3 2
  end /\
  grown (@scenario float _ (Some 30) (Some 40)) 0 = of_int 80000 /\
  (forall n,
     grown (@scenario float _ (Some 30) (Some 40)) (S n)
     = mul (grown (scenario (Some 30) (Some 40)) n)
           (add (of_int 1) (growth_rate (@scenario float _ (Some 30) (Some 40))))) /\
  (forall n st,
     run_loop (@scenario float _ (Some 30) (Some 40)) (Z.of_nat n) = Ok st ->
     Locals.salary st = grown (scenario (Some 30) (Some 40)) n) /\
  (forall i row,
     nth_error (rows_of (@scenario float _ (Some 30) (Some 40))) i = Some row ->
     Snapshot.Salary row = round2 (grown (scenario (Some 30) (Some 40)) (S i))) /\
  (forall row,
     nth_error (rows_of (@scenario float _ (Some 30) (Some 40))) 0 = Some row ->
     Snapshot.Salary row
     = round2 (mul (of_int 80000)
                 (add (of_int 1)
                    (growth_rate (@scenario float _ (Some 30) (Some 40)))))) /\
  (PrimFloat.ltb (of_int 0) (of_int 80000) = true ->
   forall row, In row (rows_of (@scenario float _ (Some 30) (Some 40))) ->
     PrimFloat.leb (round2 (of_int 80000)) (Snapshot.Salary row) = true).
Proof.
  split; [vm_compute; reflexivity|].
  exact (salary_growth_compounds (scenario (Some 30) (Some 40)) _ scenario_returns).
Defined.



(** For a salary of 50001 in technology: 53001.06, then 56181.12. *)
Lemma uneven_salary_monotone :
  PrimFloat.ltb (of_int 0) (Params.starting_salary (@uneven float _)) = true /\
  map (@Snapshot.Salary float) (rows_of uneven)
  = [literal 5300106 2; literal 5618112 2] /\
  PrimFloat.leb (literal 2 2) (growth_rate (@uneven float _)) = true /\
  forall i row row',
    nth_error (rows_of (@uneven float _)) i = Some row ->
    nth_error (rows_of (@uneven float _)) (S i) = Some row' ->
    PrimFloat.leb (Snapshot.Salary row) (Snapshot.Salary row') = true /\
    PrimFloat.leb (grown uneven (S i)) (grown uneven (S (S i))) = true /\
    Snapshot.Salary row = round2 (grown uneven (S i)) /\
    Snapshot.Salary row' = round2 (grown uneven (S (S i))).
Proof.
  assert (Hs : PrimFloat.ltb (of_int 0) (Params.starting_salary (@uneven float _))
               = true) by (vm_compute; reflexivity).
  split; [exact Hs|]. split; [vm_compute; reflexivity|].
  exact (reported_salary_monotone uneven _ Hs uneven_returns).
Defined.

(** ** Where rounding and the truth test of [marriage_age] show *)

(** A rent of 100.01 with the marriage reached is reported as 80.01, not
    as [100.01 * 0.8]; and with [marriage_age = 0] the rent 12000 is
    reported unreduced although the age has reached it. *)
Lemma rent_reported_rounded_or_unreduced :
  (Params.marriage_age (@odd_rent float _) = Some 30 /\
   option_map (@Snapshot.Age _) (row_at (@odd_rent float _) 1) = Some 30 /\
   option_map (@Snapshot.Rent _) (row_at (@odd_rent float _) 1)
   = Some (literal 8001 2) /\
   PrimFloat.eqb (literal 8001 2)
     (mul (Params.rent (@odd_rent float _)) (literal 8 1)) = false) /\
  (option_map (@Snapshot.Rent _) (row_at (@odd_rent Q _) 1)
   = Some (literal 8001 2) /\
   Qeq_bool (literal 8001 2)
     (mul (Params.rent (@odd_rent Q _)) (literal 8 1)) = false) /\
  (Params.marriage_age (@zero_marriage_age float _) = Some 0 /\
   option_map (@Snapshot.Age _) (row_at (@zero_marriage_age float _) 1) = Some 30 /\
   option_map (@Snapshot.Rent _) (row_at (@zero_marriage_age float _) 1)
   = Some (of_int 12000) /\
   PrimFloat.eqb (of_int 12000)
     (mul (Params.rent (@zero_marriage_age float _)) (literal 8 1)) = false).
Proof. repeat split; vm_compute; reflexivity. Qed.

(** With [marriage_age = 0 <= current_age = 30] both rows report the
    rent 12000, where the rounded [12000 * 0.8] is 9600; and with a
    rent of 0.01 and the marriage reached from the first year both rows
    report 0.01, the rent that was entered: [0.01 * 0.8] rounds to it. *)
Lemma zero_marriage_age_or_cent_rent :
  (Params.current_age (@zero_marriage_age float _) = Some 30 /\
   Params.marriage_age (@zero_marriage_age float _) = Some 0 /\
   map (@Snapshot.Rent _) (rows_of (@zero_marriage_age float _))
   = [of_int 12000; of_int 12000] /\
   round2 (mul (Params.rent (@zero_marriage_age float _)) (literal 8 1))
   = of_int 9600 /\
   PrimFloat.eqb (of_int 12000) (of_int 9600) = false) /\
  (Params.current_age (@cent_rent float _) = Some 30 /\
   Params.marriage_age (@cent_rent float _) = Some 30 /\
   map (@Snapshot.Rent _) (rows_of (@cent_rent float _))
   = [Params.rent cent_rent; Params.rent cent_rent] /\
   round2 (mul (Params.rent (@cent_rent float _)) (literal 8 1))
   = Params.rent cent_rent /\
   PrimFloat.eqb (mul (Params.rent (@cent_rent float _)) (literal 8 1))
     (Params.rent cent_rent) = false).
Proof. repeat split; vm_compute; reflexivity. Qed.

(** A starting salary of 0.01 at 3% is reported as 0.01 in both years:
    the input value is reported as it is.  And for a salary of 50001 in
    manufacturing the salary held after one year is the double
    51751.034999999996, not the number 50001 * 1.035 = 51751.035,
    whether 0.035 is read as the decimal or as its double: the row
    reports 51751.03 where the rounded 51751.035 would be 51751.04. *)
Lemma salary_reported_unchanged_or_off_the_power :
  (PrimFloat.ltb (of_int 0) (Params.starting_salary (@small_salary float _ 10))
   = true /\
   map (@Snapshot.Salary _) (rows_of (@small_salary float _ 10))
   = [Params.starting_salary (small_salary 10);
      Params.starting_salary (small_salary 10)]) /\
  (option_map (@Locals.salary _)
     (match run_loop (@odd_salary float _ "manufacturing") 1 with
      | Ok st => Some st
      | Raise _ => None
      end)
   = Some (grown (odd_salary "manufacturing") 1) /\
   option_map (fun q => Qeq_bool q (50001 * (1 + (35 # 1000)) ^ 1))
     (exact_value (grown (@odd_salary float _ "manufacturing") 1))
   = Some false /\
   match exact_value (growth_rate (@odd_salary float _ "manufacturing")),
         exact_value (grown (@odd_salary float _ "manufacturing") 1) with
   | Some rate, Some salary => Qeq_bool salary (50001 * (1 + rate) ^ 1)
   | _, _ => true
   end = false /\
   map (@Snapshot.Salary _) (rows_of (@odd_salary float _ "manufacturing"))
   = [literal 5175103 2; literal 5356232 2] /\
   Qround2 (50001 * (1 + (35 # 1000)) ^ 1) = (5175104 # 100)%Q).
Proof. repeat split; vm_compute; reflexivity. Qed.



(** A starting salary of 0.001 at 3% is reported as 0.0 in year 1 and in
    year 2, and a starting salary of 1.7e308 as [inf] in both: the
    reported salary does not increase. *)
Lemma tiny_or_huge_salary_reported_flat :
  (PrimFloat.ltb (of_int 0) (Params.starting_salary (@small_salary float _ 1))
   = true /\
   map (@Snapshot.Salary _) (rows_of (@small_salary float _ 1))
   = [of_int 0; of_int 0] /\
   PrimFloat.ltb (of_int 0) (of_int 0) = false) /\
  (PrimFloat.ltb (of_int 0)
     (Params.starting_salary (@overflowing float _ (literal 5 1))) = true /\
   is_finite (Params.starting_salary (@overflowing float _ (literal 5 1))) = true /\
   map (@Snapshot.Salary _) (rows_of (@overflowing float _ (literal 5 1)))
   = [infinity; infinity] /\
   PrimFloat.ltb infinity infinity = false).
Proof. repeat split; vm_compute; reflexivity. Qed.


(** * Further properties of the engine *)

(** ** For every kind of number *)

Section Horizon.
Context {T : Type} `{PyNumber T}.
Variable params : Params.t T.

(** The loop never reads [params['years']]. *)
Lemma run_loop_with_years (n k : Z) :
  run_loop (with_years params n) k = run_loop params k.
Proof. unfold run_loop. apply for_each_ext. reflexivity. Qed.

Lemma calculate_projection_with_years (n : Z) :
  calculate_projection (with_years params n) =
  st <- run_loop params n ;; Ok (Locals.results st).
Proof.
  unfold calculate_projection. cbn [with_years Params.years].
  now rewrite run_loop_with_years.
Qed.

(** A shorter run holds the first rows of a longer one. *)
Lemma run_loop_prefix (n m : nat) (st_m : Locals.t T) :
  (n <= m)%nat ->
  run_loop params (Z.of_nat m) = Ok st_m ->
  exists st_n,
    run_loop params (Z.of_nat n) = Ok st_n /\
    Locals.results st_n = firstn n (Locals.results st_m).
Proof.
  revert st_m. induction m as [|m IH]; intros st_m Hle Hrun.
  - assert (n = O) by lia. subst n. exists st_m. split; [exact Hrun|].
    rewrite run_loop_nonpos in Hrun by lia. now injection Hrun as <-.
  - destruct (Nat.eq_dec n (S m)) as [->|Hne].
    + exists st_m. split; [exact Hrun|].
      destruct (run_loop_rows _ _ _ Hrun) as [Hlen _].
      rewrite <- Hlen at 1. now rewrite firstn_all.
    + destruct (run_loop_step _ _ _ Hrun) as (a & st0 & _ & Hrun0 & ->).
      destruct (IH st0 ltac:(lia) Hrun0) as (st_n & Hrun_n & Hres).
      exists st_n. split; [exact Hrun_n|].
      destruct (run_loop_rows _ _ _ Hrun0) as [Hlen _].
      cbn [carry Locals.results]. rewrite firstn_app, Hlen.
      replace (n - m)%nat with O by lia. cbn [firstn].
      now rewrite app_nil_r.
Qed.

(** X1.  The call returns exactly when there is no year to run or
    [current_age] is an int: [years <= 0] gives the empty list whatever
    the ages are, and a missing [current_age] with [years >= 1] is the
    only way to fail. *)
Theorem projection_returns_iff :
  (Params.years params <= 0 -> calculate_projection params = Ok []) /\
  ((exists r, calculate_projection params = Ok r) <->
   (Params.years params <= 0 \/ Params.current_age params <> None)).
Proof.
  assert (Hempty : Params.years params <= 0 -> calculate_projection params = Ok []).
  { intros Hy. unfold calculate_projection. now rewrite run_loop_nonpos. }
  split; [exact Hempty|]. split.
  - intros [r Hr]. destruct (Z_le_gt_dec (Params.years params) 0) as [Hy|Hy];
      [now left | right].
    intros Hage. unfold calculate_projection in Hr.
    rewrite run_loop_raises in Hr by (auto; lia). discriminate.
  - intros [Hy|Hage].
    + eexists. now apply Hempty.
    + destruct (Params.current_age params) as [a|] eqn:E; [|congruence].
      now apply (calculate_projection_returns params a).
Qed.

End Horizon.

Section Rows.
Context {T : Type} `{PyNumber T}.
Variable params : Params.t T.

(** X2.  Projecting over fewer years gives the first rows of the longer
    projection: no row depends on [years]. *)
Theorem shorter_projection_is_prefix (n m : Z) (r : list (Snapshot.t T)) :
  n <= m ->
  calculate_projection (with_years params m) = Ok r ->
  calculate_projection (with_years params n) = Ok (firstn (Z.to_nat n) r).
Proof.
  intros Hle. rewrite !calculate_projection_with_years. intros Hr.
  destruct (run_loop params m) as [st_m|e] eqn:Hrun; cbn [bind] in Hr;
    [|discriminate].
  injection Hr as <-.
  destruct (Z_le_gt_dec n 0) as [Hn|Hn].
  - rewrite run_loop_nonpos by assumption. cbn [bind initial Locals.results].
    replace (Z.to_nat n) with O by lia. reflexivity.
  - rewrite <- (Z2Nat.id m) in Hrun by lia.
    destruct (run_loop_prefix params (Z.to_nat n) (Z.to_nat m) st_m
                ltac:(lia) Hrun) as (st_n & Hrun_n & Hres).
    rewrite Z2Nat.id in Hrun_n by lia. rewrite Hrun_n. cbn [bind].
    now rewrite Hres.
Qed.

(** A row with the state before its year and the frame of its year. *)
Lemma row_frame (r : list (Snapshot.t T)) (i : nat) (row : Snapshot.t T) :
  calculate_projection params = Ok r ->
  nth_error r i = Some row ->
  exists a st fr,
    Params.current_age params = Some a /\
    run_loop params (Z.of_nat i) = Ok st /\
    fr = figures params st (wed params a (Z.of_nat (S i))) /\
    frame_at params (Z.of_nat (S i)) = Ok fr /\
    row = snapshot (Z.of_nat (S i)) (a + Z.of_nat (S i) - 1) fr.
Proof.
  intros Hr Hrow. destruct (calculate_projection_rows _ _ Hr) as [_ Hrows].
  destruct (Hrows _ _ Hrow) as (a & fr & Hage & Hfr & Hsnap).
  destruct (frame_carried _ _ _ _ Hage Hfr) as (st & Hrun & Hfigures & _).
  exists a, st, fr. auto.
Qed.

(** X3.  The age column starts at [current_age] and grows by one a year. *)
Theorem age_by_year (r : list (Snapshot.t T)) (i : nat) (row : Snapshot.t T) :
  calculate_projection params = Ok r ->
  nth_error r i = Some row ->
  exists a,
    Params.current_age params = Some a /\
    Snapshot.Age row = a + Z.of_nat i /\
    Snapshot.Age row = a + Snapshot.Year row - 1.
Proof.
  intros Hr Hrow.
  destruct (row_frame _ _ _ Hr Hrow) as (a & st & fr & Hage & _ & _ & _ & ->).
  exists a. cbn [snapshot Snapshot.Age Snapshot.Year].
  split; [exact Hage|]. split; lia.
Qed.

(** Once the test of line 39 holds it holds in every later year. *)
Lemma wed_later (a year year' : Z) :
  year <= year' -> wed params a year = true -> wed params a year' = true.
Proof.
  unfold wed. destruct (Params.marriage_age params) as [m|]; [|discriminate].
  intros Hle Hwed. apply andb_true_iff in Hwed. destruct Hwed as [Hm Hy].
  rewrite Hm. cbn [andb]. apply Z.leb_le in Hy. apply Z.leb_le. lia.
Qed.

(** The test of line 39 fails in every year when [marriage_age] is
    [None] or 0, or lies beyond the last year. *)
Lemma wed_never (a : Z) (year : Z) :
  Params.marriage_age params = None \/
  Params.marriage_age params = Some 0 \/
  (exists m, Params.marriage_age params = Some m /\
             a + Params.years params - 1 < m) ->
  year <= Params.years params ->
  wed params a year = false.
Proof.
  unfold wed. intros [->|[->|(m & -> & Hm)]] Hyear; [reflexivity | reflexivity |].
  destruct (m =? 0); cbn [negb andb]; [reflexivity|].
  apply Z.leb_gt. lia.
Qed.

(** X4.  Without a marriage within the projection ([marriage_age] missing, 0,
    or beyond the last year) every row reports the rounded input rent and
    the same rounded expenses. *)
Theorem rent_constant_without_marriage (r : list (Snapshot.t T)) :
  Params.marriage_age params = None \/
  Params.marriage_age params = Some 0 \/
  (exists a m, Params.current_age params = Some a /\
               Params.marriage_age params = Some m /\
               a + Params.years params - 1 < m) ->
  calculate_projection params = Ok r ->
  forall row, In row r ->
    Snapshot.Rent row = round2 (Params.rent params) /\
    Snapshot.Expenses row =
    round2 (add (Params.rent params)
              (mul (Params.monthly_expenses params) (of_int 12))).
Proof.
  intros Hnever Hr row Hin. destruct (In_nth_error _ _ Hin) as [i Hrow].
  destruct (row_frame _ _ _ Hr Hrow) as (a & st & fr & Hage & _ & -> & _ & ->).
  assert (Hi : (i < List.length r)%nat) by (apply nth_error_Some; congruence).
  destruct (calculate_projection_rows _ _ Hr) as [Hlen _].
  rewrite wed_never.
  - split; reflexivity.
  - destruct Hnever as [Hn|[Hz|(a' & m & Ha' & Hm & Hlt)]]; [auto | auto |].
    right. right. exists m. split; [exact Hm|]. congruence.
  - lia.
Qed.

(** X5.  Every industry of the table gets the rate listed for it: the keys
    are distinct, so the lookup cannot pick another entry, and the
    default is not used. *)
Theorem listed_industry_rate (key : string) (v : T) :
  In (key, v) INDUSTRY_GROWTH ->
  dict_find INDUSTRY_GROWTH key = Some v /\
  growth_rate (with_industry params key) = v.
Proof.
  unfold growth_rate, dict_get. cbn [with_industry Params.industry].
  unfold INDUSTRY_GROWTH. intros Hin. cbn [In] in Hin.
  repeat match type of Hin with
         | _ \/ _ => destruct Hin as [Hin|Hin]
         end;
    try contradiction; injection Hin as <- <-; split; reflexivity.
Qed.

End Rows.

(** * The page *)

Local Open Scope Z_scope.

Section PageFacts.
Context {T : Type} `{PyNumber T} `{PyFormat T}.

(** The year column of a run is [range(1, n + 1)]. *)
Lemma run_loop_years (params : Params.t T) (n : nat) (st : Locals.t T) :
  run_loop params (Z.of_nat n) = Ok st ->
  map (@Snapshot.Year T) (Locals.results st) = range 1 (Z.of_nat n + 1).
Proof.
  revert st. induction n as [|n IH]; intros st Hrun.
  - rewrite run_loop_nonpos in Hrun by lia. injection Hrun as <-. reflexivity.
  - destruct (run_loop_step _ _ _ Hrun) as (a & st0 & _ & Hrun0 & ->).
    cbn [carry Locals.results]. rewrite map_app, (IH _ Hrun0), range_succ.
    reflexivity.
Qed.

Lemma projection_years (params : Params.t T) (r : list (Snapshot.t T)) :
  calculate_projection params = Ok r ->
  map (@Snapshot.Year T) r = range 1 (Params.years params + 1).
Proof.
  intros Hr. destruct (calculate_projection_inv _ _ Hr) as (st & Hrun & ->).
  destruct (Z_le_gt_dec (Params.years params) 0) as [Hy|Hy].
  - rewrite run_loop_nonpos in Hrun by assumption. injection Hrun as <-.
    now rewrite range_nonpos.
  - remember (Params.years params) as y eqn:Ey.
    rewrite <- (Z2Nat.id y) in Hrun |- * by lia.
    exact (run_loop_years params _ _ Hrun).
Qed.

Lemma last_row_nonempty (r : list (Snapshot.t T)) :
  r <> [] ->
  exists row,
    nth_error r (List.length r - 1) = Some row /\ last_row r = Shown row.
Proof.
  intros Hr. unfold last_row.
  destruct (nth_error r (List.length r - 1)) as [row|] eqn:E; [eauto|].
  apply nth_error_None in E. destruct r; [contradiction | cbn in E; lia].
Qed.

Variable form : Form.t T.

Lemma gate_open :
  0 < Form.starting_salary form -> 0 < Form.rent form ->
  0 < Form.monthly_expenses form ->
  run_app form =
  match calculate_projection (form_params form) with
  | Raise e => Failed (Engine e)
  | Ok results =>
      match show_results results with
      | Failed f => Failed f
      | Shown page => Shown (Results page)
      end
  end.
Proof.
  intros Hs Hr Hm. unfold run_app.
  apply Z.ltb_lt in Hs, Hr, Hm. now rewrite Hs, Hr, Hm.
Qed.

(** X12.  While one of the three amounts is still at 0 the page only shows
    the warning: the engine is not run, so nothing can fail, whatever the
    other widgets hold. *)
Theorem incomplete_form_warns :
  Form.starting_salary form <= 0 \/ Form.rent form <= 0
  \/ Form.monthly_expenses form <= 0 ->
  run_app form = Shown (Warning incomplete).
Proof.
  intros Hzero. unfold run_app.
  destruct (Z.ltb_spec 0 (Form.starting_salary form));
    destruct (Z.ltb_spec 0 (Form.rent form));
    destruct (Z.ltb_spec 0 (Form.monthly_expenses form));
    try reflexivity.
  lia.
Qed.

(** X13.  With the three amounts filled in and the marriage box left
    unchecked the page fails with [TypeError] instead of showing a
    projection. *)
Theorem unchecked_box_fails :
  0 < Form.starting_salary form -> 0 < Form.rent form ->
  0 < Form.monthly_expenses form ->
  1 <= Form.years form ->
  Form.marriage_check form = false ->
  run_app form = Failed (Engine TypeError).
Proof.
  intros Hs Hr Hm Hy Hbox. rewrite gate_open by assumption.
  unfold calculate_projection.
  rewrite run_loop_raises; [reflexivity | | exact Hy].
  cbn [form_params Params.current_age]. now rewrite Hbox.
Qed.

(** X14.  With the three amounts filled in and the marriage box checked the
    page shows the projection: a table of [years] rows, year axis
    [1 .. years] under three series of that length, and headline figures
    taken from the last row, the one of year [years]. *)
Theorem checked_box_shows_projection :
  0 < Form.starting_salary form -> 0 < Form.rent form ->
  0 < Form.monthly_expenses form ->
  1 <= Form.years form ->
  Form.marriage_check form = true ->
  exists page last,
    run_app form = Shown (Results page) /\
    calculate_projection (form_params form) = Ok (Page.table page) /\
    List.length (Page.table page) = Z.to_nat (Form.years form) /\
    Page.years_list page = range 1 (Form.years form + 1) /\
    List.length (Page.totals page) = Z.to_nat (Form.years form) /\
    List.length (Page.salaries page) = Z.to_nat (Form.years form) /\
    List.length (Page.expenses page) = Z.to_nat (Form.years form) /\
    nth_error (Page.table page) (Z.to_nat (Form.years form) - 1) = Some last /\
    Snapshot.Year last = Form.years form /\
    Snapshot.Age last = Form.current_age form + Form.years form - 1 /\
    Page.metrics page =
    [ ("Final Total Savings"%string, chf (Snapshot.Total last));
      ("Total Invested"%string, chf (Snapshot.Invested last));
      ("Final Salary"%string, chf (Snapshot.Salary last)) ].
Proof.
  intros Hs Hr Hm Hy Hbox. rewrite gate_open by assumption.
  assert (Hage : Params.current_age (form_params form)
                 = Some (Form.current_age form))
    by (cbn [form_params Params.current_age]; now rewrite Hbox).
  destruct (calculate_projection_returns _ _ Hage) as [r Hcalc].
  rewrite Hcalc.
  destruct (calculate_projection_rows _ _ Hcalc) as [Hlen Hrows].
  cbn [form_params Params.years] in Hlen.
  assert (Hne : r <> []) by (intros ->; cbn in Hlen; lia).
  destruct (last_row_nonempty r Hne) as (last & Hlast & Hshown).
  unfold show_results. rewrite Hshown.
  eexists. exists last. split; [reflexivity|].
  cbn [Page.table Page.years_list Page.totals Page.salaries Page.expenses
       Page.metrics].
  rewrite !length_map, <- Hlen.
  split; [reflexivity|]. split; [reflexivity|].
  split; [exact (projection_years _ _ Hcalc)|].
  split; [reflexivity|]. split; [reflexivity|]. split; [reflexivity|].
  split; [exact Hlast|].
  destruct (Hrows _ _ Hlast) as (a & fr & Ha & _ & ->).
  assert (a = Form.current_age form) by congruence. subst a.
  cbn [snapshot Snapshot.Year Snapshot.Age].
  split; [lia|]. split; [lia | reflexivity].
Qed.

(** X15.  [results[-1]] raises [IndexError] exactly when the projection is
    empty: with the amounts filled in, the page fails that way if and
    only if [years] is below 1, which the slider (1 to 50) rules out. *)
Theorem index_error_iff_no_year :
  0 < Form.starting_salary form -> 0 < Form.rent form ->
  0 < Form.monthly_expenses form ->
  (run_app form = Failed IndexError <-> Form.years form <= 0).
Proof.
  intros Hs Hr Hm. rewrite gate_open by assumption. split.
  - intros Hfail.
    destruct (Z_le_gt_dec (Form.years form) 0) as [Hy|Hy]; [exact Hy|].
    destruct (calculate_projection (form_params form)) as [r|e] eqn:Hcalc;
      [|discriminate].
    destruct (calculate_projection_rows _ _ Hcalc) as [Hlen _].
    cbn [form_params Params.years] in Hlen.
    assert (Hne : r <> []) by (intros ->; cbn in Hlen; lia).
    destruct (last_row_nonempty r Hne) as (last & _ & Hshown).
    unfold show_results in Hfail. rewrite Hshown in Hfail. discriminate.
  - intros Hy. unfold calculate_projection.
    rewrite run_loop_nonpos by exact Hy. reflexivity.
Qed.

End PageFacts.

(** * Runs for the further properties *)

Lemma newlyweds_two_years_prefix :
  2 <= 5 /\
  calculate_projection (with_years (@newlyweds float _) 2)
  = Ok (firstn 2 (rows_of (with_years newlyweds 5))).
Proof.
  split; [lia|].
  apply (shorter_projection_is_prefix (@newlyweds float _) 2 5); [lia|].
  vm_compute. reflexivity.
Defined.

Lemma newlyweds_age_in_year_3 :
  nth_error (rows_of (@newlyweds float _)) 2 = Some (@snapshot_of_year_3 float _) /\
  exists a,
    Params.current_age (@newlyweds float _) = Some a /\
    Snapshot.Age (@snapshot_of_year_3 float _) = a + Z.of_nat 2 /\
    Snapshot.Age (@snapshot_of_year_3 float _)
    = a + Snapshot.Year (@snapshot_of_year_3 float _) - 1.
Proof.
  assert (Hrow : nth_error (rows_of (@newlyweds float _)) 2
                 = Some (@snapshot_of_year_3 float _))
    by (vm_compute; reflexivity).
  split; [exact Hrow|].
  apply (age_by_year (@newlyweds float _) (rows_of newlyweds) 2); [|exact Hrow].
  vm_compute. reflexivity.
Defined.

Lemma zero_marriage_age_rent_constant :
  Params.marriage_age (@zero_marriage_age float _) = Some 0 /\
  forall row, In row (rows_of (@zero_marriage_age float _)) ->
    Snapshot.Rent row = round2 (of_int 12000) /\
    Snapshot.Expenses row
    = round2 (add (of_int 12000) (mul (of_int 1000) (of_int 12))).
Proof.
  split; [reflexivity|].
  apply (rent_constant_without_marriage (@zero_marriage_age float _)).
  - right. left. reflexivity.
  - vm_compute. reflexivity.
Defined.

Lemma finance_is_listed :
  In ("finance"%string, literal 5 2) (@INDUSTRY_GROWTH float _) /\
  dict_find (@INDUSTRY_GROWTH float _) "finance" = Some (literal 5 2) /\
  growth_rate (with_industry (@newlyweds float _) "finance") = literal 5 2.
Proof.
  assert (Hin : In ("finance"%string, literal 5 2) (@INDUSTRY_GROWTH float _))
    by (left; reflexivity).
  split; [exact Hin|].
  exact (listed_industry_rate newlyweds "finance" (literal 5 2) Hin).
Defined.

Lemma blank_form_warns :
  Form.starting_salary (@blank_form float _) <= 0 /\
  run_app (@blank_form float _) = Shown (Warning incomplete).
Proof.
  split; [cbn; lia|].
  apply (incomplete_form_warns (@blank_form float _)). left. cbn. lia.
Defined.

Lemma filled_form_unchecked_fails :
  Form.marriage_check (@filled_form float _ false) = false /\
  run_app (@filled_form float _ false) = Failed (Engine TypeError).
Proof.
  split; [reflexivity|].
  apply (unchecked_box_fails (@filled_form float _ false));
    cbn; try lia; reflexivity.
Defined.

Lemma filled_form_checked_shows :
  exists page last,
    run_app (@filled_form float _ true) = Shown (Results page) /\
    calculate_projection (form_params (@filled_form float _ true))
    = Ok (Page.table page) /\
    List.length (Page.table page) = 3%nat /\
    Page.years_list page = [1; 2; 3] /\
    List.length (Page.totals page) = 3%nat /\
    List.length (Page.salaries page) = 3%nat /\
    List.length (Page.expenses page) = 3%nat /\
    nth_error (Page.table page) 2 = Some last /\
    Snapshot.Year last = 3 /\
    Snapshot.Age last = 30 + 3 - 1 /\
    Page.metrics page =
    [ ("Final Total Savings"%string, chf (Snapshot.Total last));
      ("Total Invested"%string, chf (Snapshot.Invested last));
      ("Final Salary"%string, chf (Snapshot.Salary last)) ].
Proof.
  apply (checked_box_shows_projection (@filled_form float _ true));
    cbn; try lia; reflexivity.
Defined.

Lemma filled_form_no_index_error :
  0 < 80000 /\
  (run_app (@filled_form float _ true) = Failed IndexError <-> 3 <= 0).
Proof.
  split; [lia|].
  apply (index_error_iff_no_year (@filled_form float _ true)); cbn; lia.
Defined.
